(** * lambda.cpp: closures and variable capture

    A shallow embedding of [src/lambda.cpp] (built with
    USE_LAMBDA_EXPRESSION, the default selected at lines 62-66) and the
    properties of its demonstrations.

    - [int] is a 32-bit signed integer, carried as a [Z] inside
      [int_min .. int_max]; an arithmetic result outside that range, a
      zero divisor and an unrepresentable quotient are undefined
      behaviour and are modelled by [None].
    - The locals of [main] live in a store indexed by their names, so that
      a closure capturing by reference holds the name (the location) of
      the variable it aliases, while a closure capturing by value holds
      its own copy.
    - Standard output is the string written so far. *)

From stdpp Require Import gmap strings list fin_maps pretty sorting.
From Stdlib Require Import ZArith Lia Ascii.

Open Scope Z_scope.

(** ** The type [int] *)

Module Int.

Definition int_min : Z := -2147483648.
Definition int_max : Z := 2147483647.

Definition in_int (z : Z) : bool := (int_min <=? z) && (z <=? int_max).

(** A signed result is defined only when it is representable. *)
Definition checked (z : Z) : option Z :=
  if in_int z then Some z else None.

Definition add (x y : Z) : option Z := checked (x + y).

(** Unary minus, [-x]. *)
Definition neg (x : Z) : option Z := checked (- x).

(** [x % n]: undefined for a zero divisor, and undefined when the
    quotient [x / n] is not representable; otherwise the remainder of
    the division truncated towards zero. *)
Definition rem (x n : Z) : option Z :=
  if n =? 0 then None
  else match checked (Z.quot x n) with
       | Some _ => Some (Z.rem x n)
       | None => None
       end.

End Int.

(** ** Program state and the monad of statements *)

Record world : Type := World {
  ints : gmap string Z;          (* the int locals of main, by name *)
  arrays : gmap string (list Z); (* the int arrays of main, by name *)
  cout : string                  (* everything written to std::cout *)
}.

Definition M (A : Type) : Type := world → option (A * world).

#[global] Instance M_ret : MRet M := λ A a w, Some (a, w).
#[global] Instance M_bind : MBind M := λ A B f m w,
  match m w with
  | Some (a, w') => f a w'
  | None => None
  end.

(** A pure computation that may be undefined. *)
Definition lift {A} (o : option A) : M A := λ w,
  match o with
  | Some a => Some (a, w)
  | None => None
  end.

Definition load (x : string) : M Z := λ w,
  match ints w !! x with
  | Some v => Some (v, w)
  | None => None
  end.

Definition store (x : string) (v : Z) : M unit := λ w,
  Some (tt, World (<[x:=v]> (ints w)) (arrays w) (cout w)).

Definition load_array (a : string) : M (list Z) := λ w,
  match arrays w !! a with
  | Some l => Some (l, w)
  | None => None
  end.

Definition store_array (a : string) (l : list Z) : M unit := λ w,
  Some (tt, World (ints w) (<[a:=l]> (arrays w)) (cout w)).

(** [x++]: yields the old value, stores the successor. *)
Definition post_incr (x : string) : M Z :=
  v ← load x; v' ← lift (Int.add v 1); store x v';; mret v.

(** [++x]: stores and yields the successor. *)
Definition pre_incr (x : string) : M Z :=
  v ← load x; v' ← lift (Int.add v 1); store x v';; mret v'.

(** ** Output streams *)

Definition endl : string := String "010"%char "".

(** [operator<<] for the types the program prints. *)
Class Insertable (T : Type) := inserted : T → string.
#[global] Instance Insertable_int : Insertable Z := λ z, pretty z.
#[global] Instance Insertable_string : Insertable string := λ s, s.

(** [std::cout << x] *)
Definition put {T} `{Insertable T} (x : T) : M unit := λ w,
  Some (tt, World (ints w) (arrays w) (cout w +:+ inserted x)).

(** ** The algorithms of <algorithm> used by the program *)

Module Std.

(** [find_if(first, last, pred)]: the position of the first element
    satisfying [pred], or the length of the range (the iterator [last])
    when there is none. *)
Fixpoint find_if (pred : Z → option bool) (l : list Z) : option nat :=
  match l with
  | [] => Some 0%nat
  | x :: l' =>
      b ← pred x;
      if b : bool then Some 0%nat else S <$> find_if pred l'
  end.

(** [for_each(first, last, f)]: applies [f] to every element, front to
    back. *)
Fixpoint for_each {T} (f : T → M unit) (l : list T) : M unit :=
  match l with
  | [] => mret tt
  | x :: l' => f x;; for_each f l'
  end.

(** A range is sorted with respect to [comp] when [comp b a] is false
    for every [a] placed before [b]; [std::sort] leaves a permutation of
    the range that is sorted in this sense, and promises nothing more. *)
Definition sorted_wrt (comp : Z → Z → option bool) (l : list Z) : Prop :=
  ∀ (i j : nat) (a b : Z),
    (i < j)%nat → l !! i = Some a → l !! j = Some b → comp b a = Some false.

Definition sort_post (comp : Z → Z → option bool) (l l' : list Z) : Prop :=
  l ≡ₚ l' ∧ sorted_wrt comp l'.

(** The walk of a straight insertion: [before] lists the sorted part
    from the slot next to [val] down to the first one; [val] moves left
    while [comp val next] holds. *)
Fixpoint linear_insert (comp : Z → Z → option bool) (val : Z)
    (before : list Z) : option (list Z) :=
  match before with
  | [] => Some [val]
  | next :: rest =>
      b ← comp val next;
      if b : bool then (next ::.) <$> linear_insert comp val rest
      else Some (val :: before)
  end.

Fixpoint insertion_loop (comp : Z → Z → option bool)
    (before todo : list Z) : option (list Z) :=
  match todo with
  | [] => Some (rev before)
  | val :: todo' =>
      before' ← linear_insert comp val before;
      insertion_loop comp before' todo'
  end.

(** [sort(first, last, comp)], run as the straight insertion sort that
    libstdc++ applies to ranges of at most 16 elements. *)
Definition sort (comp : Z → Z → option bool) (l : list Z) : option (list Z) :=
  insertion_loop comp [] l.

End Std.

(** ** The classes and closures of lambda.cpp *)

(** [class can_divide] (lines 73-79). *)
Record can_divide : Type := { n_ : Z }.

Definition can_divide_call (self : can_divide) (x : Z) : option bool :=
  r ← Int.rem x (n_ self); Some (r =? 0).

(** [x > 0 ? x : -x], the operand of both comparators. *)
Definition magnitude (x : Z) : option Z :=
  if 0 <? x then Some x else Int.neg x.

(** [class abs_less] (lines 82-87); it has no data member. *)
Definition abs_less_call (x y : Z) : option bool :=
  mx ← magnitude x; my ← magnitude y; Some (mx <? my).

(** [[n](int x){return x % n == 0;}] (line 99): [n] is copied into the
    closure when the closure is built. *)
Record divides_lambda : Type := { dl_n : Z }.

Definition divides_call (c : divides_lambda) (x : Z) : option bool :=
  r ← Int.rem x (dl_n c); Some (r =? 0).

(** [[](int x, int y){return (x > 0 ? x : -x) < (y > 0 ? y : -y);}]
    (line 117). *)
Definition abs_lambda (x y : Z) : option bool :=
  mx ← magnitude x; my ← magnitude y; Some (mx <? my).

(** [println] (line 130) and [polite] (line 133): neither captures. *)
Definition println (str : string) : M unit := put str;; put endl.

Definition polite (str : string) : M string := mret (str +:+ " SIR ").

(** [[number]() {cout << number << " Captured " << endl;}] (line 147). *)
Record capt_print_t : Type := { cp_number : Z }.

Definition capt_print_new : M capt_print_t :=
  v ← load "number"; mret {| cp_number := v |}.

Definition capt_print_call (c : capt_print_t) : M unit :=
  put (cp_number c);; put " Captured ";; put endl.

(** [[number]() mutable {cout << number++ << " Captured " << endl;}]
    (line 159): the increment acts on the closure's own copy, so a call
    yields the closure in its next state. *)
Record capt_print2_t : Type := { cp2_number : Z }.

Definition capt_print2_new : M capt_print2_t :=
  v ← load "number"; mret {| cp2_number := v |}.

Definition capt_print2_call (c : capt_print2_t) : M capt_print2_t :=
  v' ← lift (Int.add (cp2_number c) 1);
  put (cp2_number c);; put " Captured ";; put endl;;
  mret {| cp2_number := v' |}.

(** [[&number3]() { std::cout << number3++ << " Captured \n"; }]
    (line 177): the closure holds the location of [number3]. *)
Record capt_print3_t : Type := { cp3_number3 : string }.

Definition capt_print3_new : M capt_print3_t :=
  mret {| cp3_number3 := "number3" |}.

Definition capt_print3_call (c : capt_print3_t) : M unit :=
  v ← post_incr (cp3_number3 c);
  put v;; put (" Captured " +:+ endl).

(** [[&count,target](int x) { if ( x < target) ++count; }] (line 192). *)
Record count_less_t : Type := { cl_count : string; cl_target : Z }.

Definition count_less_new : M count_less_t :=
  t ← load "target"; mret {| cl_count := "count"; cl_target := t |}.

Definition count_less_call (c : count_less_t) (x : Z) : M unit :=
  if x <? cl_target c then pre_incr (cl_count c);; mret tt else mret tt.

(** [template<typename T> class numbers] (lines 51-60). *)
Record numbers (T : Type) : Type := { data : list T }.
Arguments data {T} _.

Section numbers_members.
Context {T : Type} `{Insertable T}.

Definition numbers_new : numbers T := {| data := [] |}.

Definition print_one (self : numbers T) (x : T) : M unit :=
  put x;; put " ".

(** [push_back] *)
Definition add (x : T) (self : numbers T) : numbers T :=
  {| data := data self ++ [x] |}.

(** [[this](T x){print_one(x);}] (line 58). *)
Record print_all_lambda : Type := { this : numbers T }.

Definition print_all_lambda_call (c : print_all_lambda) (x : T) : M unit :=
  print_one (this c) x.

Definition print_all (self : numbers T) : M unit :=
  Std.for_each (print_all_lambda_call {| this := self |}) (data self).
End numbers_members.

(** ** [main] *)

(** The array literals of lines 91 and 194. *)
Definition ar_init : list Z := [9; 7; 5; 3; 1; -2; -4; -6; -8; 0].
Definition data_init : list Z := [1; 3; 5; 7; 2; 4; 6; 8].

(** [sort(a, a+len, comp)] on a named array. *)
Definition sort_in_place (a : string) (comp : Z → Z → option bool) : M unit :=
  l ← load_array a; l' ← lift (Std.sort comp l); store_array a l'.

(** Lines 91-105; the divisor is the value [n] holds at line 99. *)
Definition search_and_report : M unit :=
  n ← load "n";
  ar ← load_array "ar";
  found ← lift (Std.find_if (divides_call {| dl_n := n |}) ar);
  if decide (found ≠ 10%nat) then
    x ← lift (ar !! found);
    n ← load "n";
    put x;; put " can be divided by ";; put n;; put endl
  else mret tt.

Definition demo_find : M unit :=
  store_array "ar" ar_init;;
  store "n" 4;;
  search_and_report.

(** Lines 116-122. *)
Definition demo_sort : M unit :=
  sort_in_place "ar" abs_lambda;;
  ar ← load_array "ar";
  Std.for_each (λ x : Z, put x;; put " ") ar;;
  put endl.

(** Lines 130-137. *)
Definition demo_stored_closures : M unit :=
  msg ← polite "Ben";
  println msg;;
  r ← polite "Bingshiue";
  println r.

(** Lines 146-151. *)
Definition demo_value_capture : M unit :=
  store "number" 123;;
  capt_print ← capt_print_new;
  store "n" 456;;
  capt_print_call capt_print;;
  put endl.

(** Lines 159-163. *)
Definition mutable_capture_calls : M unit :=
  capt_print2 ← capt_print2_new;
  capt_print2 ← capt_print2_call capt_print2;
  capt_print2 ← capt_print2_call capt_print2;
  capt_print2 ← capt_print2_call capt_print2;
  number2 ← load "number2";
  put "number2 = ";; put number2;; put endl.

(** Lines 158-165. *)
Definition demo_mutable_capture : M unit :=
  store "number2" 123;;
  mutable_capture_calls;;
  put endl.

(** Lines 174-186. *)
Definition demo_reference_capture : M unit :=
  store "number3" 123;;
  capt_print3 ← capt_print3_new;
  capt_print3_call capt_print3;;
  capt_print3_call capt_print3;;
  capt_print3_call capt_print3;;
  number3 ← load "number3";
  put "number3 = ";; put number3;; put endl;;
  store "number3" 456;;
  capt_print3_call capt_print3;;
  number3 ← load "number3";
  put "number3 = ";; put number3;; put endl;;
  put endl.

(** Lines 189-199. *)
Definition demo_multi_capture : M unit :=
  store "target" 5;;
  store "count" 0;;
  count_less ← count_less_new;
  store_array "data" data_init;;
  store "count" 0;;
  data ← load_array "data";
  Std.for_each (count_less_call count_less) data;;
  count ← load "count";
  target ← load "target";
  put count;; put " Numbers ";; put "Less Than ";; put target;; put endl;;
  put endl.

(** Lines 208-212. *)
Definition demo_this_capture : M unit :=
  let ints := numbers_new in
  let ints := add 1 ints in
  let ints := add 2 ints in
  let ints := add 3 ints in
  print_all ints;;
  put endl.

Definition main : M Z :=
  demo_find;;
  demo_sort;;
  demo_stored_closures;;
  demo_value_capture;;
  demo_mutable_capture;;
  demo_reference_capture;;
  demo_multi_capture;;
  demo_this_capture;;
  mret 0.

(** ** [main] built with USE_FUNCTION_OBJECT *)

(** Lines 92-105 with line 95 in place of line 99: the search is given a
    [can_divide] built from [n]. *)
Definition search_and_report_fo : M unit :=
  n ← load "n";
  ar ← load_array "ar";
  found ← lift (Std.find_if (can_divide_call {| n_ := n |}) ar);
  if decide (found ≠ 10%nat) then
    x ← lift (ar !! found);
    n ← load "n";
    put x;; put " can be divided by ";; put n;; put endl
  else mret tt.

Definition demo_find_fo : M unit :=
  store_array "ar" ar_init;;
  store "n" 4;;
  search_and_report_fo.

(** [for(int idx=0; idx < 10; idx++){ cout << ar[idx] << " "; }]
    (lines 110-112), entered with the given value of [idx]. Reading
    outside the array is undefined; [fuel] bounds the number of times the
    guard is tested. *)
Fixpoint index_loop (fuel : nat) (idx : Z) : M unit :=
  match fuel with
  | O => λ _, None
  | S fuel' =>
      if idx <? 10 then
        ar ← load_array "ar";
        x ← lift (if 0 <=? idx then ar !! Z.to_nat idx else None);
        put x;; put " ";;
        idx' ← lift (Int.add idx 1);
        index_loop fuel' idx'
      else mret tt
  end.

(** Lines 108-112 and 122. *)
Definition demo_sort_fo : M unit :=
  sort_in_place "ar" abs_less_call;;
  index_loop 11 0;;
  put endl.

Definition main_fo : M Z :=
  demo_find_fo;;
  demo_sort_fo;;
  demo_stored_closures;;
  demo_value_capture;;
  demo_mutable_capture;;
  demo_reference_capture;;
  demo_multi_capture;;
  demo_this_capture;;
  mret 0.

(** [k] successive calls of a closure that keeps no state of its own. *)
Fixpoint repeat_call (call : M unit) (k : nat) : M unit :=
  match k with
  | O => mret tt
  | S k' => call;; repeat_call call k'
  end.

(** The state in which [main] starts: no local yet, nothing printed. *)
Definition start : world := World ∅ ∅ "".

(** What a run leaves behind: the final state, and the text it added to
    the output is read off [cout]. *)
Definition exec {A} (m : M A) (w : world) : option world := snd <$> m w.

(** [k] successive calls of a closure whose calls update its own state. *)
Fixpoint call_times {C} (call : C → M C) (k : nat) (c : C) : M C :=
  match k with
  | O => mret c
  | S k' => c' ← call c; call_times call k' c'
  end.

(** A run of assignments [x = v;] to locals of [main]. *)
Definition assign_all (l : list (string * Z)) : M unit :=
  Std.for_each (λ xv, store xv.1 xv.2) l.

(** Lines 147-149 with the assignment [n = 456;] of line 148 replaced by
    an arbitrary run of assignments. *)
Definition value_capture_under (later : list (string * Z)) : M unit :=
  capt_print ← capt_print_new;
  assign_all later;;
  capt_print_call capt_print.

(** The text of several pieces written one after the other. *)
Definition join (l : list string) : string := foldr String.append "" l.

(** The lines written by [k] calls of a printing closure whose value
    starts at [v] and grows by one per call. *)
Definition captured_lines (v : Z) (k : nat) : string :=
  join ((λ i, pretty i +:+ " Captured " +:+ endl) <$> seqZ v (Z.of_nat k)).

(** The absolute values of a sequence never go down from front to back. *)
Definition abs_nondecreasing (l : list Z) : Prop :=
  ∀ (i j : nat) (a b : Z),
    (i ≤ j)%nat → l !! i = Some a → l !! j = Some b → Z.abs a ≤ Z.abs b.

(** The order the comparators sort by. *)
Definition below (a b : Z) : Prop := Z.abs a ≤ Z.abs b.

(** An int whose negation is an int: any but INT_MIN. *)
Definition negatable (x : Z) : Prop := Int.int_min < x ≤ Int.int_max.

(** * Properties *)

(** ** Running statements *)

Lemma run_bind {A B} (m : M A) (f : A → M B) (w : world) :
  (m ≫= f) w = match m w with Some (a, w') => f a w' | None => None end.
Proof. reflexivity. Qed.

Lemma run_put {T} `{Insertable T} (x : T) (w : world) :
  put x w = Some (tt, World (ints w) (arrays w) (cout w +:+ inserted x)).
Proof. reflexivity. Qed.

Lemma app_cons (ch : ascii) (a b : string) :
  String ch a +:+ b = String ch (a +:+ b).
Proof. reflexivity. Qed.

Lemma app_assoc_s (a b c : string) : (a +:+ b) +:+ c = a +:+ (b +:+ c).
Proof. induction a as [|ch a IH]; [done | by rewrite !app_cons, IH]. Qed.

Lemma app_empty_r (a : string) : a +:+ "" = a.
Proof. induction a as [|ch a IH]; [done | by rewrite app_cons, IH]. Qed.

Lemma world_eta (w : world) : World (ints w) (arrays w) (cout w) = w.
Proof. by destruct w. Qed.

(** ** C1: the predicate search *)

(** [find_if] stops at the first element the predicate accepts. *)
Lemma find_if_first (pred : Z → option bool) (l : list Z) (i : nat) :
  Std.find_if pred l = Some i →
  (i ≤ length l)%nat
  ∧ Forall (λ x, pred x = Some false) (take i l)
  ∧ ((i < length l)%nat → ∃ x, l !! i = Some x ∧ pred x = Some true).
Proof.
  revert i. induction l as [|x l IH]; intros i; simpl.
  - intros [= <-]. simpl. split_and!; [lia | constructor | lia].
  - destruct (pred x) as [[]|] eqn:Hp; simpl; [| |done].
    + intros [= <-]. simpl. split_and!; [lia | constructor | eauto].
    + destruct (Std.find_if pred l) as [k|]; simpl; [|done].
      intros [= <-]. destruct (IH k eq_refl) as (Hk & Hall & Hat).
      simpl. split_and!; [lia | by constructor |].
      intros Hlt. apply Hat. lia.
Qed.

(** C1. Searching {9,7,5,3,1,-2,-4,-6,-8,0} with the captured divisor 4
    stops at position 6, which holds -4: no earlier element has remainder
    0, and main prints the line "-4 can be divided by 4". With the
    captured divisor 1 the search stops at the first element, 9. *)
Theorem C1_predicate_search :
  Std.find_if (divides_call {| dl_n := 4 |}) ar_init = Some 6%nat
  ∧ ar_init !! 6%nat = Some (-4)
  ∧ Forall (λ x, divides_call {| dl_n := 4 |} x = Some false) (take 6 ar_init)
  ∧ cout <$> exec demo_find start = Some ("-4 can be divided by 4" +:+ endl)
  ∧ Std.find_if (divides_call {| dl_n := 1 |}) ar_init = Some 0%nat
  ∧ ar_init !! 0%nat = Some 9
  ∧ cout <$> exec (store_array "ar" ar_init;; store "n" 1;; search_and_report)
               start
    = Some ("9 can be divided by 1" +:+ endl).
Proof.
  split_and!;
    [vm_compute; reflexivity | reflexivity
    | cbv [take ar_init]; repeat constructor
    | vm_compute; reflexivity..].
Qed.

(** ** C9: closures stored in variables *)

Lemma run_polite (s : string) (w : world) :
  polite s w = Some (s +:+ " SIR ", w).
Proof. reflexivity. Qed.

Lemma run_println (s : string) (w : world) :
  println s w = Some (tt, World (ints w) (arrays w) (cout w +:+ s +:+ endl)).
Proof.
  change (println s w)
    with (Some (tt, World (ints w) (arrays w) ((cout w +:+ s) +:+ endl))).
  by rewrite app_assoc_s.
Qed.

Lemma run_println_polite (s : string) (w : world) :
  (r ← polite s; println r) w
  = Some (tt, World (ints w) (arrays w)
                (cout w +:+ (s +:+ " SIR ") +:+ endl)).
Proof. rewrite run_bind, run_polite. apply run_println. Qed.

(** C9. For every string, [polite] returns it followed by " SIR " and
    [println] writes its argument and a newline; [println(polite(s))]
    writes s, " SIR " and a newline. Neither call reads or changes
    anything but the output, so any run of such calls writes the
    corresponding lines one after the other; in main these are the lines
    "Ben SIR " and "Bingshiue SIR ". *)
Theorem C9_stored_closures :
  (∀ s w, polite s w = Some (s +:+ " SIR ", w))
  ∧ (∀ s w, println s w
            = Some (tt, World (ints w) (arrays w) (cout w +:+ s +:+ endl)))
  ∧ (∀ s w, (r ← polite s; println r) w
            = Some (tt, World (ints w) (arrays w)
                          (cout w +:+ (s +:+ " SIR ") +:+ endl)))
  ∧ (∀ ss w, Std.for_each (λ s, r ← polite s; println r) ss w
             = Some (tt, World (ints w) (arrays w)
                           (cout w +:+
                            join ((λ s, (s +:+ " SIR ") +:+ endl) <$> ss))))
  ∧ (∀ w, demo_stored_closures w
          = Some (tt, World (ints w) (arrays w)
                        (cout w +:+ ("Ben SIR " +:+ endl)
                                +:+ ("Bingshiue SIR " +:+ endl)))).
Proof.
  split_and!.
  - apply run_polite.
  - apply run_println.
  - apply run_println_polite.
  - intros ss. induction ss as [|s ss IH]; intros w.
    + simpl. by rewrite app_empty_r, world_eta.
    + change (Std.for_each _ (s :: ss) w)
        with (((r ← polite s; println r);;
               Std.for_each (λ s, r ← polite s; println r) ss) w).
      rewrite run_bind, run_println_polite, IH. simpl.
      by rewrite !app_assoc_s.
  - intros w. unfold demo_stored_closures.
    rewrite run_bind, run_polite, run_bind, run_println.
    rewrite run_bind, run_polite, run_println. simpl.
    by rewrite !app_assoc_s.
Qed.

(** ** C7: capture by value *)

Lemma run_load (x : string) (v : Z) (w : world) :
  ints w !! x = Some v → load x w = Some (v, w).
Proof. intros Hx. unfold load. by rewrite Hx. Qed.

Lemma run_store (x : string) (v : Z) (w : world) :
  store x v w = Some (tt, World (<[x:=v]> (ints w)) (arrays w) (cout w)).
Proof. reflexivity. Qed.

(** Assignments touch neither the arrays nor the output. *)
Lemma run_assign_all (l : list (string * Z)) (w : world) :
  ∃ m, assign_all l w = Some (tt, World m (arrays w) (cout w)).
Proof.
  revert w. induction l as [|[x v] l IH]; intros w.
  - exists (ints w). simpl. by rewrite world_eta.
  - change (assign_all ((x, v) :: l) w)
      with ((store x v;; assign_all l) w).
    rewrite run_bind, run_store.
    destruct (IH (World (<[x:=v]> (ints w)) (arrays w) (cout w))) as [m Hm].
    exists m. by rewrite Hm.
Qed.

(** A call of [capt_print] reads nothing but the closure's own copy. *)
Lemma run_capt_print_call (c : capt_print_t) (w : world) :
  capt_print_call c w
  = Some (tt, World (ints w) (arrays w)
                (cout w +:+ pretty (cp_number c) +:+ " Captured " +:+ endl)).
Proof.
  change (capt_print_call c w)
    with (Some (tt, World (ints w) (arrays w)
                      (((cout w +:+ pretty (cp_number c)) +:+ " Captured ")
                       +:+ endl))).
  by rewrite !app_assoc_s.
Qed.

Lemma run_value_capture_under (later : list (string * Z)) (w : world) :
  ints w !! "number" = Some 123 →
  cout <$> exec (value_capture_under later) w
  = Some (cout w +:+ "123 Captured " +:+ endl).
Proof.
  intros Hn. unfold exec, value_capture_under, capt_print_new.
  rewrite !run_bind, (run_load _ _ _ Hn). simpl.
  rewrite run_bind.
  destruct (run_assign_all later w) as [m ->].
  by rewrite run_capt_print_call.
Qed.

(** Lines 146-151 are that scheme with the single assignment [n = 456]. *)
Lemma demo_value_capture_unfold (w : world) :
  demo_value_capture w
  = (store "number" 123;; value_capture_under [("n", 456)];; put endl) w.
Proof.
  unfold demo_value_capture, value_capture_under, capt_print_new.
  rewrite !run_bind, !run_store.
  rewrite !run_bind, (run_load "number" 123) by apply lookup_insert_eq.
  reflexivity.
Qed.

(** C7. Once [capt_print] has been built while [number] holds 123, a call
    writes "123 Captured " and a newline whatever is assigned afterwards,
    to [number] or to any other local: two runs that differ only in the
    assignments made between construction and call write the same text.
    In main the assignment is [n = 456]. *)
Theorem C7_value_capture_snapshot
    (w : world) (later1 later2 : list (string * Z)) :
  ints w !! "number" = Some 123 →
  cout <$> exec (value_capture_under later1) w
    = Some (cout w +:+ "123 Captured " +:+ endl)
  ∧ cout <$> exec (value_capture_under later1) w
    = cout <$> exec (value_capture_under later2) w
  ∧ cout <$> exec demo_value_capture w
    = Some (cout w +:+ ("123 Captured " +:+ endl) +:+ endl).
Proof.
  intros Hn. rewrite !run_value_capture_under by done.
  split_and!; [done..|].
  unfold exec. rewrite demo_value_capture_unfold.
  rewrite run_bind, run_store, run_bind.
  pose proof (run_value_capture_under [("n", 456)]
    (World (<["number":=123]> (ints w)) (arrays w) (cout w))
    (lookup_insert_eq _ _ _)) as Hrun.
  unfold exec in Hrun.
  destruct (value_capture_under _ _) as [[[] w']|]; [|done].
  simpl in Hrun. injection Hrun as Hrun.
  rewrite run_put. simpl. rewrite Hrun. by rewrite !app_assoc_s.
Qed.

Lemma C7_value_capture_snapshot_witness :
  ints (World {["number" := 123]} ∅ "") !! "number" = Some 123
  ∧ cout <$> exec (value_capture_under [("number", 7); ("n", 456)])
               (World {["number" := 123]} ∅ "")
    = cout <$> exec (value_capture_under []) (World {["number" := 123]} ∅ "").
Proof.
  split; [reflexivity|].
  apply (C7_value_capture_snapshot
           (World {["number" := 123]} ∅ "") [("number", 7); ("n", 456)] []).
  reflexivity.
Defined.

(** ** C2 and C10: mutable capture by value *)

Lemma checked_in_range (z : Z) :
  Int.int_min ≤ z ≤ Int.int_max → Int.checked z = Some z.
Proof.
  intros [Hlo Hhi]. unfold Int.checked, Int.in_int.
  apply Z.leb_le in Hlo, Hhi. by rewrite Hlo, Hhi.
Qed.

Lemma checked_out_of_range (z : Z) :
  ¬ (Int.int_min ≤ z ≤ Int.int_max) → Int.checked z = None.
Proof.
  intros Hout. unfold Int.checked, Int.in_int.
  destruct (Int.int_min <=? z) eqn:Hlo; [|done].
  destruct (z <=? Int.int_max) eqn:Hhi; [|done].
  apply Z.leb_le in Hlo, Hhi. lia.
Qed.

(** A call prints the closure's copy and moves the closure to the next
    value; the state of main is left alone. *)
Lemma run_capt_print2_call (v : Z) (w : world) :
  Int.int_min ≤ v + 1 ≤ Int.int_max →
  capt_print2_call {| cp2_number := v |} w
  = Some ({| cp2_number := v + 1 |},
          World (ints w) (arrays w)
            (cout w +:+ pretty v +:+ " Captured " +:+ endl)).
Proof.
  intros Hv. unfold capt_print2_call, Int.add. simpl.
  rewrite run_bind. rewrite (checked_in_range _ Hv). simpl.
  change ((put v;; put " Captured ";; put endl;;
           mret {| cp2_number := v + 1 |}) w)
    with (Some ({| cp2_number := v + 1 |},
                World (ints w) (arrays w)
                  (((cout w +:+ pretty v) +:+ " Captured ") +:+ endl))).
  by rewrite !app_assoc_s.
Qed.


Lemma captured_lines_S (v : Z) (k : nat) :
  captured_lines v (S k)
  = (pretty v +:+ " Captured " +:+ endl) +:+ captured_lines (v + 1) k.
Proof.
  unfold captured_lines. rewrite seqZ_cons by lia.
  replace (Z.pred (Z.of_nat (S k))) with (Z.of_nat k) by lia.
  replace (Z.succ v) with (v + 1) by lia. reflexivity.
Qed.

Lemma run_call_times (k : nat) (v : Z) (w : world) :
  Int.int_min ≤ v + 1 → v + Z.of_nat k ≤ Int.int_max →
  call_times capt_print2_call k {| cp2_number := v |} w
  = Some ({| cp2_number := v + Z.of_nat k |},
          World (ints w) (arrays w) (cout w +:+ captured_lines v k)).
Proof.
  revert v w. induction k as [|k IH]; intros v w Hlo Hhi.
  - simpl. unfold captured_lines. simpl.
    by rewrite app_empty_r, world_eta, Z.add_0_r.
  - change (call_times capt_print2_call (S k) {| cp2_number := v |} w)
      with ((c' ← capt_print2_call {| cp2_number := v |};
             call_times capt_print2_call k c') w).
    rewrite run_bind, run_capt_print2_call by lia.
    rewrite IH by lia. simpl.
    rewrite captured_lines_S, !app_assoc_s.
    by replace (v + 1 + Z.of_nat k) with (v + Z.of_nat (S k)) by lia.
Qed.

(** Past the last representable value the increment is undefined. *)
Lemma run_call_times_overflow (k : nat) (v : Z) (w : world) :
  Int.int_min ≤ v + 1 → v ≤ Int.int_max → Int.int_max < v + Z.of_nat k →
  call_times capt_print2_call k {| cp2_number := v |} w = None.
Proof.
  revert v w. induction k as [|k IH]; intros v w Hlo Hin Hhi.
  - lia.
  - change (call_times capt_print2_call (S k) {| cp2_number := v |} w)
      with ((c' ← capt_print2_call {| cp2_number := v |};
             call_times capt_print2_call k c') w).
    rewrite run_bind.
    destruct (decide (v + 1 ≤ Int.int_max)) as [Hv|Hv].
    + rewrite run_capt_print2_call by lia. apply IH; lia.
    + unfold capt_print2_call, Int.add. simpl. rewrite run_bind.
      by rewrite checked_out_of_range by lia.
Qed.

Lemma run_mutable_capture_calls (w : world) (v : Z) :
  ints w !! "number" = Some 123 →
  ints w !! "number2" = Some v →
  mutable_capture_calls w
  = Some (tt, World (ints w) (arrays w)
                (cout w +:+ captured_lines 123 3
                        +:+ "number2 = " +:+ pretty v +:+ endl)).
Proof.
  intros Hn Hn2. unfold mutable_capture_calls, capt_print2_new.
  rewrite !run_bind, (run_load _ _ _ Hn). simpl.
  rewrite run_bind, run_capt_print2_call by done.
  rewrite run_bind, run_capt_print2_call by done.
  rewrite run_bind, run_capt_print2_call by done.
  rewrite run_bind, (run_load "number2" v) by done.
  change ((put "number2 = ";; put v;; put endl) ?w')
    with (Some (tt, World (ints w') (arrays w')
                      (((cout w' +:+ "number2 = ") +:+ pretty v) +:+ endl))).
  simpl. rewrite !app_assoc_s. reflexivity.
Qed.

(** No call of [capt_print2] writes to a local of main. *)
Lemma call_times_frame (k : nat) (c c' : capt_print2_t) (w w' : world) :
  call_times capt_print2_call k c w = Some (c', w') →
  ints w' = ints w ∧ arrays w' = arrays w.
Proof.
  revert c w. induction k as [|k IH]; intros c w.
  - intros [= <- <-]. done.
  - change (call_times capt_print2_call (S k) c w)
      with ((c1 ← capt_print2_call c; call_times capt_print2_call k c1) w).
    rewrite run_bind. unfold capt_print2_call at 1. rewrite run_bind.
    destruct (Int.add (cp2_number c) 1) as [v'|]; simpl; [|done].
    intros Hk. apply IH in Hk. simpl in Hk. done.
Qed.

(** C2. Built while [number] holds 123, [capt_print2] prints 123, 124 and
    125 on its three calls and main then prints "number2 = 123". More
    generally [k] successive calls print 123, ..., 123+k-1, each on its
    own line, as long as the closure's copy stays representable, and no
    run of calls, of any length, changes a local of main: [number] and
    [number2] keep the value 123. *)
Theorem C2_mutable_value_capture (w : world) (k : nat) :
  ints w !! "number" = Some 123 →
  123 + Z.of_nat k ≤ Int.int_max →
  (store "number2" 123;; mutable_capture_calls) w
    = Some (tt, World (<["number2":=123]> (ints w)) (arrays w)
                  (cout w +:+
                   join ["123 Captured "; endl; "124 Captured "; endl;
                         "125 Captured "; endl; "number2 = 123"; endl]))
  ∧ (c ← capt_print2_new; call_times capt_print2_call k c) w
    = Some ({| cp2_number := 123 + Z.of_nat k |},
            World (ints w) (arrays w) (cout w +:+ captured_lines 123 k))
  ∧ (∀ n c c' w1 w2,
       call_times capt_print2_call n c w1 = Some (c', w2) →
       ints w2 = ints w1 ∧ arrays w2 = arrays w1).
Proof.
  intros Hn Hk. split_and!.
  - rewrite run_bind, run_store.
    rewrite (run_mutable_capture_calls _ 123); simpl.
    + reflexivity.
    + by rewrite lookup_insert_ne.
    + apply lookup_insert_eq.
  - unfold capt_print2_new. rewrite !run_bind, (run_load _ _ _ Hn). simpl.
    by apply run_call_times.
  - intros n c c' w1 w2. apply call_times_frame.
Qed.

Lemma C2_mutable_value_capture_witness :
  ints (World {["number" := 123]} ∅ "") !! "number" = Some 123
  ∧ 123 + Z.of_nat 3 ≤ Int.int_max
  ∧ (c ← capt_print2_new; call_times capt_print2_call 3 c)
      (World {["number" := 123]} ∅ "")
    = Some ({| cp2_number := 123 + Z.of_nat 3 |},
            World {["number" := 123]} ∅ ("" +:+ captured_lines 123 3)).
Proof.
  split; [reflexivity|]. split; [by vm_compute|].
  refine (proj1 (proj2
    (C2_mutable_value_capture (World {["number" := 123]} ∅ "") 3 _ _))).
  - reflexivity.
  - by vm_compute.
Defined.

(** C10. [capt_print2] copies [number], not [number2]: whatever value
    [number2] is initialised with at line 158, the three calls print 123,
    124 and 125, and the report that follows prints that value, which
    [number2] still holds. *)
Theorem C10_number2_noninterference (w : world) (v : Z) :
  ints w !! "number" = Some 123 →
  (store "number2" v;; mutable_capture_calls) w
    = Some (tt, World (<["number2":=v]> (ints w)) (arrays w)
                  (cout w +:+
                   join ["123 Captured "; endl; "124 Captured "; endl;
                         "125 Captured "; endl]
                   +:+ "number2 = " +:+ pretty v +:+ endl))
  ∧ (store "number2" v;; capt_print2_new) w
    = Some ({| cp2_number := 123 |},
            World (<["number2":=v]> (ints w)) (arrays w) (cout w)).
Proof.
  intros Hn. split.
  - rewrite run_bind, run_store.
    rewrite (run_mutable_capture_calls _ v); simpl.
    + reflexivity.
    + by rewrite lookup_insert_ne.
    + apply lookup_insert_eq.
  - rewrite run_bind, run_store. unfold capt_print2_new.
    rewrite run_bind, (run_load "number" 123).
    + reflexivity.
    + simpl. by rewrite lookup_insert_ne.
Qed.

Lemma C10_number2_noninterference_witness :
  ints (World {["number" := 123]} ∅ "") !! "number" = Some 123
  ∧ (store "number2" 77;; capt_print2_new) (World {["number" := 123]} ∅ "")
    = Some ({| cp2_number := 123 |},
            World (<["number2":=77]> {["number" := 123]}) ∅ "").
Proof.
  split; [reflexivity|].
  refine (proj2
    (C10_number2_noninterference (World {["number" := 123]} ∅ "") 77 _)).
  reflexivity.
Defined.

(** ** C3: capture by reference *)

Lemma run_post_incr (x : string) (v : Z) (w : world) :
  ints w !! x = Some v →
  Int.int_min ≤ v + 1 ≤ Int.int_max →
  post_incr x w
  = Some (v, World (<[x:=v + 1]> (ints w)) (arrays w) (cout w)).
Proof.
  intros Hx Hv. unfold post_incr, Int.add.
  rewrite run_bind, (run_load _ _ _ Hx).
  rewrite run_bind, (checked_in_range _ Hv). reflexivity.
Qed.

(** A call reads the variable the closure aliases, prints what it finds
    there and leaves the successor in the variable itself. *)
Lemma run_capt_print3_call (c : capt_print3_t) (v : Z) (w : world) :
  ints w !! cp3_number3 c = Some v →
  Int.int_min ≤ v + 1 ≤ Int.int_max →
  capt_print3_call c w
  = Some (tt, World (<[cp3_number3 c:=v + 1]> (ints w)) (arrays w)
                (cout w +:+ pretty v +:+ " Captured " +:+ endl)).
Proof.
  intros Hx Hv. unfold capt_print3_call.
  rewrite run_bind, (run_post_incr _ _ _ Hx Hv).
  rewrite run_bind, run_put, run_put. simpl.
  by rewrite app_assoc_s.
Qed.

Ltac call3 :=
  rewrite run_bind;
  erewrite run_capt_print3_call;
    [ | simpl; apply lookup_insert_eq | done ];
  simpl; rewrite ?insert_insert_eq.

Lemma run_demo_reference_capture (w : world) :
  demo_reference_capture w
  = Some (tt, World (<["number3":=457]> (ints w)) (arrays w)
                (cout w +:+
                 join ["123 Captured "; endl; "124 Captured "; endl;
                       "125 Captured "; endl; "number3 = 126"; endl;
                       "456 Captured "; endl; "number3 = 457"; endl;
                       endl])).
Proof.
  unfold demo_reference_capture, capt_print3_new.
  rewrite run_bind, run_store, run_bind. simpl.
  call3. call3. call3.
  rewrite run_bind, (run_load "number3" 126) by apply lookup_insert_eq.
  do 3 (rewrite run_bind, run_put; simpl).
  rewrite run_bind, run_store. simpl. rewrite insert_insert_eq.
  call3.
  rewrite run_bind, (run_load "number3" 457) by apply lookup_insert_eq.
  do 3 (rewrite run_bind, run_put; simpl).
  rewrite run_put. simpl.
  rewrite !app_assoc_s. reflexivity.
Qed.

(** C3. [capt_print3] works on the live variable [number3]: whatever
    value below INT_MAX is assigned to [number3] from outside after the
    closure was built, the next call prints that value and leaves its
    successor in [number3], where main reads it. In main, three calls
    print 123, 124, 125 and main reports "number3 = 126"; after
    [number3 = 456] the call prints 456 and main reports
    "number3 = 457". *)
Theorem C3_reference_capture (w : world) (v : Z) :
  Int.int_min ≤ v < Int.int_max →
  (c ← capt_print3_new; store "number3" v;; capt_print3_call c;;
   load "number3") w
    = Some (v + 1,
            World (<["number3":=v + 1]> (ints w)) (arrays w)
              (cout w +:+ pretty v +:+ " Captured " +:+ endl))
  ∧ demo_reference_capture w
    = Some (tt, World (<["number3":=457]> (ints w)) (arrays w)
                  (cout w +:+
                   join ["123 Captured "; endl; "124 Captured "; endl;
                         "125 Captured "; endl; "number3 = 126"; endl;
                         "456 Captured "; endl; "number3 = 457"; endl;
                         endl])).
Proof.
  intros Hv. split; [|apply run_demo_reference_capture].
  unfold capt_print3_new. rewrite run_bind. simpl.
  rewrite run_bind, run_store, run_bind.
  erewrite run_capt_print3_call;
    [ | simpl; apply lookup_insert_eq | unfold Int.int_min in *; lia ].
  simpl. rewrite insert_insert_eq.
  by rewrite (run_load "number3" (v + 1)) by apply lookup_insert_eq.
Qed.

Lemma C3_reference_capture_witness :
  Int.int_min ≤ 456 < Int.int_max
  ∧ (c ← capt_print3_new; store "number3" 456;; capt_print3_call c;;
     load "number3") start
    = Some (456 + 1,
            World (<["number3":=456 + 1]> (ints start)) (arrays start)
              (cout start +:+ pretty 456 +:+ " Captured " +:+ endl)).
Proof.
  split; [by vm_compute|].
  refine (proj1 (C3_reference_capture start 456 _)). by vm_compute.
Defined.

(** ** C6: mixed capture, counting through a reference *)

Lemma run_pre_incr (x : string) (v : Z) (w : world) :
  ints w !! x = Some v →
  Int.int_min ≤ v + 1 ≤ Int.int_max →
  pre_incr x w
  = Some (v + 1, World (<[x:=v + 1]> (ints w)) (arrays w) (cout w)).
Proof.
  intros Hx Hv. unfold pre_incr, Int.add.
  rewrite run_bind, (run_load _ _ _ Hx).
  rewrite run_bind, (checked_in_range _ Hv). reflexivity.
Qed.

(** The number of elements of [l] strictly below [t]. *)
Lemma count_below_cons (t x : Z) (l : list Z) :
  Z.of_nat (length (filter (λ y, y < t) (x :: l)))
  = (if x <? t then 1 else 0) + Z.of_nat (length (filter (λ y, y < t) l)).
Proof.
  rewrite filter_cons. destruct (Z.ltb_spec x t).
  - rewrite decide_True by done. simpl length. lia.
  - rewrite decide_False by lia. lia.
Qed.

(** One call: the aliased counter goes up by one exactly when the
    argument is below the captured threshold, and is untouched
    otherwise. *)
Lemma run_count_less_call (c : count_less_t) (x n : Z) (w : world) :
  ints w !! cl_count c = Some n →
  Int.int_min ≤ n + 1 ≤ Int.int_max →
  count_less_call c x w
  = Some (tt, World (<[cl_count c:=n + (if x <? cl_target c then 1 else 0)]>
                       (ints w)) (arrays w) (cout w)).
Proof.
  intros Hc Hn. unfold count_less_call. destruct (x <? cl_target c).
  - rewrite run_bind, (run_pre_incr _ _ _ Hc Hn). reflexivity.
  - rewrite Z.add_0_r, insert_id by done. simpl. by rewrite world_eta.
Qed.

(** A whole traversal adds to the counter the number of elements below
    the threshold. *)
Lemma run_for_each_count_less (c : count_less_t) (l : list Z) (n : Z)
    (w : world) :
  ints w !! cl_count c = Some n →
  Int.int_min ≤ n + 1 →
  n + Z.of_nat (length l) ≤ Int.int_max →
  Std.for_each (count_less_call c) l w
  = Some (tt, World (<[cl_count c:=
                        n + Z.of_nat (length (filter (λ y, y < cl_target c) l))]>
                       (ints w)) (arrays w) (cout w)).
Proof.
  revert n w. induction l as [|x l IH]; intros n w Hc Hlo Hhi.
  - simpl. rewrite Z.add_0_r, insert_id by done. by rewrite world_eta.
  - change (Std.for_each (count_less_call c) (x :: l) w)
      with ((count_less_call c x;; Std.for_each (count_less_call c) l) w).
    simpl length in Hhi.
    rewrite run_bind, (run_count_less_call _ _ _ _ Hc) by lia.
    erewrite IH; [ | simpl; apply lookup_insert_eq | | ].
    + simpl. rewrite insert_insert_eq, count_below_cons.
      by rewrite Z.add_assoc.
    + destruct (x <? cl_target c); lia.
    + destruct (x <? cl_target c); lia.
Qed.

Lemma run_demo_multi_capture (w : world) :
  demo_multi_capture w
  = Some (tt, World (<["count":=4]> (<["target":=5]> (ints w)))
                (<["data":=data_init]> (arrays w))
                (cout w +:+ join ["4 Numbers Less Than 5"; endl; endl])).
Proof.
  unfold demo_multi_capture, count_less_new.
  rewrite run_bind, run_store, run_bind, run_store. simpl.
  rewrite !run_bind, (run_load "target" 5)
    by (simpl; by rewrite lookup_insert_ne, lookup_insert_eq).
  simpl. rewrite run_bind. simpl.
  rewrite run_bind, run_store. simpl. rewrite insert_insert_eq.
  rewrite run_bind. unfold load_array at 1. simpl.
  rewrite lookup_insert_eq.
  rewrite run_bind.
  rewrite (run_for_each_count_less _ _ 0);
    [ | simpl; apply lookup_insert_eq | done | done ].
  simpl. rewrite insert_insert_eq.
  rewrite run_bind, (run_load "count" 4) by apply lookup_insert_eq.
  rewrite run_bind, (run_load "target" 5)
    by (simpl; by rewrite lookup_insert_ne, lookup_insert_eq).
  do 5 (rewrite run_bind, run_put; simpl).
  rewrite run_put. simpl.
  rewrite !app_assoc_s. reflexivity.
Qed.

(** C6 does not hold as worded: main leaves 4 in [count], not 3. *)
Lemma C6_counter_is_not_3 :
  (exec demo_multi_capture start ≫= λ w, ints w !! "count") ≠ Some 3.
Proof.
  unfold exec. rewrite run_demo_multi_capture. simpl.
  rewrite lookup_insert_eq. discriminate.
Qed.

(** C6, amended. Applied once per element, [count_less] adds to the
    aliased counter exactly one for every element strictly below the
    captured threshold and leaves it alone otherwise, so a traversal
    started with the counter at [n] ends with [n] plus the number of such
    elements. For {1,3,5,7,2,4,6,8} and threshold 5 that number is 4 (the
    elements 1, 3, 2 and 4), and main prints "4 Numbers Less Than 5". *)
Theorem C6_counting_closure (w : world) (l : list Z) (t n : Z) :
  ints w !! "count" = Some n →
  Int.int_min ≤ n + 1 →
  n + Z.of_nat (length l) ≤ Int.int_max →
  Std.for_each (count_less_call {| cl_count := "count"; cl_target := t |}) l w
    = Some (tt, World (<["count":=
                          n + Z.of_nat (length (filter (λ y, y < t) l))]>
                         (ints w)) (arrays w) (cout w))
  ∧ filter (λ y, y < 5) data_init = [1; 3; 2; 4]
  ∧ demo_multi_capture w
    = Some (tt, World (<["count":=4]> (<["target":=5]> (ints w)))
                  (<["data":=data_init]> (arrays w))
                  (cout w +:+ join ["4 Numbers Less Than 5"; endl; endl])).
Proof.
  intros Hc Hlo Hhi. split_and!.
  - by apply (run_for_each_count_less
                {| cl_count := "count"; cl_target := t |}).
  - reflexivity.
  - apply run_demo_multi_capture.
Qed.

Lemma C6_counting_closure_witness :
  ints (World {["count" := 0]} ∅ "") !! "count" = Some 0
  ∧ Int.int_min ≤ 0 + 1
  ∧ 0 + Z.of_nat (length data_init) ≤ Int.int_max
  ∧ Std.for_each (count_less_call {| cl_count := "count"; cl_target := 5 |})
      data_init (World {["count" := 0]} ∅ "")
    = Some (tt, World (<["count":=
                          0 + Z.of_nat (length (filter (λ y, y < 5) data_init))]>
                         {["count" := 0]}) ∅ "").
Proof.
  split; [reflexivity|]. split; [by vm_compute|]. split; [by vm_compute|].
  refine (proj1
    (C6_counting_closure (World {["count" := 0]} ∅ "") data_init 5 0 _ _ _)).
  - reflexivity.
  - by vm_compute.
  - by vm_compute.
Defined.

(** ** C5: the container [numbers<T>] *)

Section numbers_facts.
Context {T : Type} `{Insertable T}.

Lemma data_add_all (c : numbers T) (xs : list T) :
  data (foldl (λ c x, add x c) c xs) = data c ++ xs.
Proof.
  revert c. induction xs as [|x xs IH]; intros c; simpl.
  - by rewrite app_nil_r.
  - rewrite IH. simpl. by rewrite <- app_assoc.
Qed.

Lemma run_print_one (self : numbers T) (x : T) (w : world) :
  print_one self x w
  = Some (tt, World (ints w) (arrays w) (cout w +:+ inserted x +:+ " ")).
Proof.
  unfold print_one. rewrite run_bind, !run_put. simpl.
  by rewrite app_assoc_s.
Qed.

(** The traversal calls [print_one] on the elements from front to back,
    once each. *)
Lemma run_for_each_print_one (self : numbers T) (l : list T) (w : world) :
  Std.for_each (print_all_lambda_call {| this := self |}) l w
  = Some (tt, World (ints w) (arrays w)
                (cout w +:+ join ((λ x, inserted x +:+ " ") <$> l))).
Proof.
  revert w. induction l as [|x l IH]; intros w.
  - simpl. by rewrite app_empty_r, world_eta.
  - change (Std.for_each (print_all_lambda_call {| this := self |})
              (x :: l) w)
      with ((print_one self x;;
             Std.for_each (print_all_lambda_call {| this := self |}) l) w).
    rewrite run_bind, run_print_one, IH. simpl.
    by rewrite !app_assoc_s.
Qed.

(** C5. After any sequence of [add] calls on a new container the
    stored sequence is exactly the added values in the order of the
    calls, and [print_all] writes every stored element once, in that
    order, each followed by a blank, leaving the rest of the state
    alone. *)
Theorem C5_numbers_add_print_all (xs : list T) (w : world) :
  data (foldl (λ c x, add x c) numbers_new xs) = xs
  ∧ (∀ (c : numbers T) (x : T), data (add x c) = data c ++ [x])
  ∧ print_all (foldl (λ c x, add x c) numbers_new xs) w
    = Some (tt, World (ints w) (arrays w)
                  (cout w +:+ join ((λ x, inserted x +:+ " ") <$> xs))).
Proof.
  split_and!.
  - by rewrite data_add_all.
  - done.
  - unfold print_all. by rewrite run_for_each_print_one, data_add_all.
Qed.
End numbers_facts.

(** Lines 208-212 print "1 2 3 " and a newline. *)
Lemma run_demo_this_capture (w : world) :
  demo_this_capture w
  = Some (tt, World (ints w) (arrays w) (cout w +:+ "1 2 3 " +:+ endl)).
Proof.
  unfold demo_this_capture, print_all.
  rewrite run_bind, run_for_each_print_one, run_put. simpl.
  by rewrite !app_assoc_s.
Qed.

(** ** C8: when the divisibility test is defined *)

Lemma in_int_range (z : Z) :
  Int.in_int z = true ↔ Int.int_min ≤ z ≤ Int.int_max.
Proof.
  unfold Int.in_int. rewrite andb_true_iff, !Z.leb_le. done.
Qed.

(** The quotient of two ints is an int, but for INT_MIN / -1. *)
Lemma quot_in_range (x n : Z) :
  Int.int_min ≤ x ≤ Int.int_max → n ≠ 0 →
  ¬ (x = Int.int_min ∧ n = -1) →
  Int.int_min ≤ Z.quot x n ≤ Int.int_max.
Proof.
  unfold Int.int_min, Int.int_max. intros Hx Hn Hex.
  destruct (decide (n = 1)) as [->|Hn1]; [rewrite Z.quot_1_r; lia|].
  destruct (decide (n = -1)) as [->|Hn2].
  - change (-1) with (- (1)). rewrite Z.quot_opp_r, Z.quot_1_r by lia. lia.
  - assert (Z.abs (Z.quot x n) ≤ 1073741824) as Habs; [|lia].
    rewrite <- Z.quot_abs by done.
    rewrite Z.quot_div_nonneg by lia.
    transitivity (Z.abs x / 2).
    + apply Z.div_le_compat_l; lia.
    + apply Z.div_le_upper_bound; lia.
Qed.

Lemma rem_defined (x n : Z) :
  Int.int_min ≤ x ≤ Int.int_max → n ≠ 0 →
  ¬ (x = Int.int_min ∧ n = -1) →
  Int.rem x n = Some (Z.rem x n).
Proof.
  intros Hx Hn Hex. unfold Int.rem.
  destruct (Z.eqb_spec n 0) as [|_]; [done|].
  by rewrite checked_in_range by by apply quot_in_range.
Qed.

Lemma rem_by_zero (x : Z) : Int.rem x 0 = None.
Proof. reflexivity. Qed.

Lemma rem_min_by_minus_one : Int.rem Int.int_min (-1) = None.
Proof. reflexivity. Qed.

(** The class and the closure compute the same test. *)
Lemma can_divide_call_lambda (n x : Z) :
  can_divide_call {| n_ := n |} x = divides_call {| dl_n := n |} x.
Proof. reflexivity. Qed.

(** C8 does not hold as worded: with the non-zero divisor -1 the test is
    undefined at INT_MIN, whose quotient by -1 is not an int. *)
Lemma C8_min_by_minus_one_undefined :
  Int.in_int Int.int_min = true
  ∧ Int.in_int (-1) = true
  ∧ -1 ≠ 0
  ∧ divides_call {| dl_n := -1 |} Int.int_min = None
  ∧ can_divide_call {| n_ := -1 |} Int.int_min = None.
Proof. split_and!; done. Qed.

(** C8, amended. For ints [x] and [n] with [n] non-zero, and not both
    [x] = INT_MIN and [n] = -1, the test [x % n == 0] is defined and says
    whether the truncated remainder is 0, for the closure of line 99 as
    for [can_divide]. With [n] = 0 it is undefined for every [x]: neither
    checks its divisor. *)
Theorem C8_divisibility_defined (x n : Z) :
  Int.in_int x = true →
  n ≠ 0 →
  ¬ (x = Int.int_min ∧ n = -1) →
  divides_call {| dl_n := n |} x = Some (Z.rem x n =? 0)
  ∧ can_divide_call {| n_ := n |} x = Some (Z.rem x n =? 0)
  ∧ (∀ y, divides_call {| dl_n := 0 |} y = None
          ∧ can_divide_call {| n_ := 0 |} y = None).
Proof.
  intros Hx%in_int_range Hn Hex.
  unfold can_divide_call, divides_call. simpl.
  rewrite (rem_defined x n) by done. done.
Qed.

Lemma C8_divisibility_defined_witness :
  Int.in_int (-4) = true
  ∧ 4 ≠ 0
  ∧ ¬ (-4 = Int.int_min ∧ 4 = -1)
  ∧ divides_call {| dl_n := 4 |} (-4) = Some (Z.rem (-4) 4 =? 0).
Proof.
  split; [reflexivity|]. split; [lia|]. split; [lia|].
  refine (proj1 (C8_divisibility_defined (-4) 4 _ _ _)).
  - reflexivity.
  - lia.
  - lia.
Defined.

(** ** C4: sorting by absolute value *)

Lemma magnitude_negatable (x : Z) : negatable x → magnitude x = Some (Z.abs x).
Proof.
  unfold negatable, magnitude, Int.neg. intros Hx.
  destruct (Z.ltb_spec 0 x).
  - f_equal. lia.
  - rewrite checked_in_range by (unfold Int.int_min, Int.int_max in *; lia).
    f_equal. lia.
Qed.

(** On such ints both comparators compare absolute values. *)
Lemma abs_lambda_negatable (x y : Z) :
  negatable x → negatable y → abs_lambda x y = Some (Z.abs x <? Z.abs y).
Proof.
  intros Hx Hy. unfold abs_lambda.
  by rewrite (magnitude_negatable x), (magnitude_negatable y).
Qed.

Lemma abs_less_call_lambda (x y : Z) : abs_less_call x y = abs_lambda x y.
Proof. reflexivity. Qed.

Lemma StronglySorted_lookup {A} (R : relation A) (l : list A) (i j : nat)
    (a b : A) :
  StronglySorted R l → (i < j)%nat →
  l !! i = Some a → l !! j = Some b → R a b.
Proof.
  intros Hs. revert i j. induction Hs as [|x l Hs IH Hall]; intros i j Hij.
  - by rewrite lookup_nil.
  - destruct j as [|j]; [lia|]. destruct i as [|i]; simpl.
    + intros [= <-] Hb. rewrite Forall_forall in Hall.
      apply Hall. by eapply list_elem_of_lookup_2.
    + apply IH. lia.
Qed.

Lemma StronglySorted_rev {A} (R : relation A) (l : list A) :
  StronglySorted (flip R) l → StronglySorted R (rev l).
Proof.
  induction 1 as [|x l Hs IH Hall]; simpl; [constructor|].
  apply StronglySorted_app. split_and!.
  - intros a b Ha Hb. apply list_elem_of_singleton in Hb as ->.
    rewrite Forall_forall in Hall. apply Hall.
    rewrite list_elem_of_In in Ha |- *. by apply in_rev.
  - done.
  - repeat constructor.
Qed.

(** Walking [val] leftwards into a part sorted from right to left keeps
    it sorted and loses no element. *)
Lemma linear_insert_abs (val : Z) (before : list Z) :
  negatable val → Forall negatable before →
  StronglySorted (flip below) before →
  ∃ r, Std.linear_insert abs_lambda val before = Some r
       ∧ r ≡ₚ val :: before
       ∧ StronglySorted (flip below) r.
Proof.
  intros Hval Hsafe Hs.
  induction Hs as [|next rest Hs IH Hall]; simpl.
  - exists [val]. split_and!; [done..|]. repeat constructor.
  - apply Forall_cons in Hsafe as [Hnext Hrest].
    rewrite (abs_lambda_negatable val next) by done. simpl.
    destruct (Z.ltb_spec (Z.abs val) (Z.abs next)) as [Hlt|Hge].
    + destruct (IH Hrest) as (r & -> & Hperm & Hsorted). simpl.
      exists (next :: r). split_and!; [done | |].
      * rewrite Hperm. apply Permutation_swap.
      * constructor; [done|]. rewrite Hperm.
        constructor; [unfold flip, below; lia | done].
    + exists (val :: next :: rest). split_and!; [done..|].
      constructor; [by constructor|].
      constructor; [unfold flip, below; lia|].
      eapply Forall_impl; [exact Hall|]. unfold flip, below in *.
      intros b Hb. lia.
Qed.

Lemma insertion_loop_abs (before todo : list Z) :
  Forall negatable before → Forall negatable todo →
  StronglySorted (flip below) before →
  ∃ r, Std.insertion_loop abs_lambda before todo = Some r
       ∧ r ≡ₚ before ++ todo
       ∧ StronglySorted below r.
Proof.
  revert before. induction todo as [|val todo IH]; intros before Hb Ht Hs.
  - exists (rev before). simpl. split_and!; [done | |].
    + by rewrite app_nil_r, <- Permutation_rev.
    + by apply StronglySorted_rev.
  - apply Forall_cons in Ht as [Hval Ht]. simpl.
    destruct (linear_insert_abs val before) as (b' & -> & Hperm & Hs');
      [done..|]. simpl.
    destruct (IH b') as (r & Hr & Hperm' & Hsorted); [|done..|].
    + rewrite Hperm. by constructor.
    + exists r. split_and!; [done | | done].
      rewrite Hperm', Hperm. simpl. apply Permutation_middle.
Qed.

(** The sort returns, with a permutation of its input in non-decreasing
    order of absolute value. *)
Lemma sort_abs (l : list Z) :
  Forall negatable l →
  ∃ l', Std.sort abs_lambda l = Some l'
        ∧ l ≡ₚ l'
        ∧ StronglySorted below l'.
Proof.
  intros Hl. destruct (insertion_loop_abs [] l) as (r & Hr & Hperm & Hs);
    [constructor | done | constructor |].
  exists r. by split_and!.
Qed.

Lemma sorted_wrt_of_StronglySorted (l : list Z) :
  Forall negatable l → StronglySorted below l →
  Std.sorted_wrt abs_lambda l.
Proof.
  intros Hl Hs i j a b Hij Ha Hb.
  rewrite Forall_forall in Hl.
  rewrite abs_lambda_negatable
    by (apply Hl; by eapply list_elem_of_lookup_2).
  f_equal. apply Z.ltb_ge.
  by apply (StronglySorted_lookup below l i j a b).
Qed.

(** Whatever order the comparator accepts as sorted has non-decreasing
    absolute values. *)
Lemma abs_nondecreasing_of_sorted_wrt (l : list Z) :
  Forall negatable l → Std.sorted_wrt abs_lambda l → abs_nondecreasing l.
Proof.
  intros Hl Hs i j a b Hij Ha Hb.
  destruct (decide (i = j)) as [->|Hne].
  - rewrite Ha in Hb. injection Hb as ->. lia.
  - assert (abs_lambda b a = Some false) as Hc
      by (apply (Hs i j); [lia | done..]).
    rewrite Forall_forall in Hl.
    rewrite abs_lambda_negatable in Hc
      by (apply Hl; by eapply list_elem_of_lookup_2).
    injection Hc as Hc. by apply Z.ltb_ge in Hc.
Qed.

Lemma negatable_opp (x : Z) : negatable x → negatable (- x).
Proof. unfold negatable, Int.int_min, Int.int_max. lia. Qed.

(** A value and its negation: the comparator says "not less" both ways. *)
Lemma abs_lambda_tie (x : Z) :
  negatable x →
  abs_lambda x (- x) = Some false ∧ abs_lambda (- x) x = Some false.
Proof.
  intros Hx. pose proof (negatable_opp x Hx) as Hx'.
  rewrite !abs_lambda_negatable by done.
  rewrite Z.abs_opp, Z.ltb_irrefl. done.
Qed.

Lemma sorted_wrt_pair (comp : Z → Z → option bool) (a b : Z) :
  comp b a = Some false → Std.sorted_wrt comp [a; b].
Proof.
  intros Hc i j a' b' Hij Ha Hb.
  destruct i as [|i], j as [|[|j]]; try lia; simpl in *; [congruence|done..].
Qed.

Lemma run_for_each_put (l : list Z) (w : world) :
  Std.for_each (λ x : Z, put x;; put " ") l w
  = Some (tt, World (ints w) (arrays w)
                (cout w +:+ join ((λ x, pretty x +:+ " ") <$> l))).
Proof.
  revert w. induction l as [|x l IH]; intros w.
  - simpl. by rewrite app_empty_r, world_eta.
  - change (Std.for_each (λ x : Z, put x;; put " ") (x :: l) w)
      with (((put x;; put " ");;
             Std.for_each (λ x : Z, put x;; put " ") l) w).
    rewrite !run_bind, !run_put, IH. simpl.
    by rewrite !app_assoc_s.
Qed.

Lemma run_demo_sort (w : world) :
  arrays w !! "ar" = Some ar_init →
  demo_sort w
  = Some (tt, World (ints w)
                (<["ar":=[0; 1; -2; 3; -4; 5; -6; 7; -8; 9]]> (arrays w))
                (cout w +:+ "0 1 -2 3 -4 5 -6 7 -8 9 " +:+ endl)).
Proof.
  intros Har. unfold demo_sort, sort_in_place.
  rewrite !run_bind. unfold load_array at 1. rewrite Har.
  change (Std.sort abs_lambda ar_init)
    with (Some [0; 1; -2; 3; -4; 5; -6; 7; -8; 9]).
  simpl. rewrite run_bind. unfold load_array. simpl.
  rewrite lookup_insert_eq.
  rewrite run_bind, run_for_each_put, run_put. simpl.
  by rewrite !app_assoc_s.
Qed.

(** C4. On ints other than INT_MIN the sort returns a permutation of its
    input whose absolute values never go down, and every arrangement the
    comparator accepts as sorted has that property. For
    {9,7,5,3,1,-2,-4,-6,-8,0} the result is {0,1,-2,3,-4,5,-6,7,-8,9},
    stored back in [ar] and printed by main. The comparator answers false
    both ways on a value and its negation, so either order of such a pair
    counts as sorted. *)
Theorem C4_sort_by_absolute_value (w : world) (l : list Z) (x : Z) :
  arrays w !! "ar" = Some ar_init →
  Forall negatable l →
  negatable x →
  (∃ l', Std.sort abs_lambda l = Some l'
         ∧ Std.sort_post abs_lambda l l'
         ∧ abs_nondecreasing l')
  ∧ (∀ l', Std.sort_post abs_lambda l l' → abs_nondecreasing l')
  ∧ Std.sort abs_lambda ar_init = Some [0; 1; -2; 3; -4; 5; -6; 7; -8; 9]
  ∧ demo_sort w
    = Some (tt, World (ints w)
                  (<["ar":=[0; 1; -2; 3; -4; 5; -6; 7; -8; 9]]> (arrays w))
                  (cout w +:+ "0 1 -2 3 -4 5 -6 7 -8 9 " +:+ endl))
  ∧ abs_lambda x (- x) = Some false
  ∧ abs_lambda (- x) x = Some false
  ∧ Std.sort_post abs_lambda [x; - x] [x; - x]
  ∧ Std.sort_post abs_lambda [x; - x] [- x; x].
Proof.
  intros Har Hl Hx. destruct (abs_lambda_tie x Hx) as [Ht1 Ht2].
  split_and!; [ | | done | by apply run_demo_sort | done | done | | ].
  - destruct (sort_abs l Hl) as (l' & Hsort & Hperm & Hs).
    assert (Forall negatable l') as Hl' by by rewrite <- Hperm.
    assert (Std.sorted_wrt abs_lambda l') as Hw
      by by apply sorted_wrt_of_StronglySorted.
    exists l'. split_and!; [done | by split |].
    by apply abs_nondecreasing_of_sorted_wrt.
  - intros l' [Hperm Hw]. apply abs_nondecreasing_of_sorted_wrt; [|done].
    by rewrite <- Hperm.
  - split; [done|]. by apply sorted_wrt_pair.
  - split; [apply Permutation_swap|]. by apply sorted_wrt_pair.
Qed.

Lemma C4_sort_by_absolute_value_witness :
  arrays (World ∅ {["ar" := ar_init]} "") !! "ar" = Some ar_init
  ∧ Forall negatable ar_init
  ∧ negatable 2
  ∧ ∃ l', Std.sort abs_lambda ar_init = Some l'
          ∧ Std.sort_post abs_lambda ar_init l'
          ∧ abs_nondecreasing l'.
Proof.
  assert (Forall negatable ar_init) as Hl
    by (unfold ar_init; repeat constructor; by vm_compute).
  assert (negatable 2) as Hx by (split; by vm_compute).
  split; [reflexivity|]. split; [exact Hl|]. split; [exact Hx|].
  refine (proj1 (C4_sort_by_absolute_value
                   (World ∅ {["ar" := ar_init]} "") ar_init 2 _ Hl Hx)).
  reflexivity.
Defined.

(** ** The whole program *)

(** [main] returns 0 after writing this text. *)
Lemma main_output :
  (λ r, (r.1, cout r.2)) <$> main start
  = Some (0,
          join ["-4 can be divided by 4"; endl;
                "0 1 -2 3 -4 5 -6 7 -8 9 "; endl;
                "Ben SIR "; endl;
                "Bingshiue SIR "; endl;
                "123 Captured "; endl;
                endl;
                "123 Captured "; endl;
                "124 Captured "; endl;
                "125 Captured "; endl;
                "number2 = 123"; endl;
                endl;
                "123 Captured "; endl;
                "124 Captured "; endl;
                "125 Captured "; endl;
                "number3 = 126"; endl;
                "456 Captured "; endl;
                "number3 = 457"; endl;
                endl;
                "4 Numbers Less Than 5"; endl;
                endl;
                "1 2 3 "; endl]).
Proof. vm_compute. reflexivity. Qed.

(** * Further properties of the code *)

(** ** The divisibility test *)

(** X2. Where it is defined, [x % n == 0] says exactly whether [n] divides
    [x], for the closure as for [can_divide]. *)
Theorem divides_call_decides (x n : Z) :
  Int.in_int x = true →
  n ≠ 0 →
  ¬ (x = Int.int_min ∧ n = -1) →
  (divides_call {| dl_n := n |} x = Some true ↔ (n | x))
  ∧ (divides_call {| dl_n := n |} x = Some false ↔ ¬ (n | x))
  ∧ can_divide_call {| n_ := n |} x = divides_call {| dl_n := n |} x.
Proof.
  intros Hx%in_int_range Hn Hex.
  unfold can_divide_call, divides_call. simpl.
  rewrite (rem_defined x n) by done. simpl.
  pose proof (Z.rem_divide x n Hn) as Hdiv.
  destruct (Z.eqb_spec (Z.rem x n) 0) as [Hr|Hr]; split_and!; try done.
  - split; [intros _; by apply Hdiv | done].
  - split; [done | intros Hnd; destruct Hnd; by apply Hdiv].
  - split; [done | intros Hd; by apply Hdiv in Hd].
  - split; [intros _ Hd; by apply Hdiv in Hd | done].
Qed.

Lemma divides_call_decides_witness :
  Int.in_int (-8) = true
  ∧ 4 ≠ 0
  ∧ ¬ (-8 = Int.int_min ∧ 4 = -1)
  ∧ (divides_call {| dl_n := 4 |} (-8) = Some true ↔ (4 | -8)).
Proof.
  split; [reflexivity|]. split; [lia|]. split; [lia|].
  refine (proj1 (divides_call_decides (-8) 4 _ _ _)).
  - reflexivity.
  - lia.
  - lia.
Defined.

(** X3. On ints the test is undefined in exactly two cases: a zero divisor,
    and INT_MIN tested against -1. *)
Theorem divides_call_undefined_iff (x n : Z) :
  Int.in_int x = true →
  divides_call {| dl_n := n |} x = None
  ↔ n = 0 ∨ (x = Int.int_min ∧ n = -1).
Proof.
  intros Hx%in_int_range. split.
  - intros Hnone.
    destruct (decide (n = 0)) as [|Hn]; [by left|].
    destruct (decide (x = Int.int_min ∧ n = -1)) as [|Hex]; [by right|].
    unfold divides_call in Hnone. simpl in Hnone.
    by rewrite (rem_defined x n) in Hnone.
  - intros [->|[-> ->]]; reflexivity.
Qed.

Lemma divides_call_undefined_iff_witness :
  Int.in_int 7 = true
  ∧ (divides_call {| dl_n := 0 |} 7 = None
     ↔ 0 = 0 ∨ (7 = Int.int_min ∧ 0 = -1)).
Proof.
  split; [reflexivity|].
  apply (divides_call_undefined_iff 7 0). reflexivity.
Defined.

(** ** The search of lines 99-105 on any array *)

(** When the predicate is a defined test of [P] on every element,
    [find_if] returns the position of the first element with [P], or the
    end of the range. *)
Lemma find_if_list_find (pred : Z → option bool) (P : Z → Prop)
    `{∀ x, Decision (P x)} (l : list Z) :
  Forall (λ x, pred x = Some (bool_decide (P x))) l →
  Std.find_if pred l = Some (from_option fst (length l) (list_find P l)).
Proof.
  induction 1 as [|x l Hx Hl IH]; [done|].
  simpl. rewrite Hx. simpl. destruct (decide (P x)) as [Hp|Hp].
  - by rewrite bool_decide_eq_true_2.
  - rewrite bool_decide_eq_false_2 by done. rewrite IH. simpl.
    by destruct (list_find P l) as [[i y]|].
Qed.

Lemma run_load_array (a : string) (l : list Z) (w : world) :
  arrays w !! a = Some l → load_array a w = Some (l, w).
Proof. intros Ha. unfold load_array. by rewrite Ha. Qed.

(** X1. For any 10-element int array and any non-zero divisor (not -1 when
    the array holds INT_MIN), lines 99-105 print the first element whose
    remainder is 0 together with the divisor, and print nothing when no
    element has remainder 0; nothing else changes. *)
Theorem search_and_report_first (w : world) (a : list Z) (n : Z) :
  arrays w !! "ar" = Some a →
  length a = 10%nat →
  ints w !! "n" = Some n →
  n ≠ 0 →
  Forall (λ x, Int.in_int x = true ∧ ¬ (x = Int.int_min ∧ n = -1)) a →
  search_and_report w
  = Some (tt, World (ints w) (arrays w)
                (cout w +:+
                 match list_find (λ x, Z.rem x n = 0) a with
                 | Some (_, x) =>
                     pretty x +:+ " can be divided by " +:+ pretty n +:+ endl
                 | None => ""
                 end)).
Proof.
  intros Har Hlen Hn Hn0 Hall. unfold search_and_report.
  rewrite run_bind, (run_load _ _ _ Hn).
  rewrite run_bind, (run_load_array _ _ _ Har).
  rewrite run_bind.
  rewrite (find_if_list_find _ (λ x, Z.rem x n = 0)); last first.
  { eapply Forall_impl; [exact Hall|]. intros x [Hx%in_int_range Hex].
    unfold divides_call. simpl. rewrite (rem_defined x n) by done. simpl.
    f_equal. destruct (Z.eqb_spec (Z.rem x n) 0).
    - by rewrite bool_decide_eq_true_2.
    - by rewrite bool_decide_eq_false_2. }
  simpl. destruct (list_find _ a) as [[i x]|] eqn:Hfind; simpl.
  - apply list_find_Some in Hfind as (Hi & _ & _).
    assert (i < length a)%nat as Hlt by by eapply lookup_lt_Some.
    rewrite decide_True by lia.
    rewrite run_bind, Hi. simpl.
    rewrite run_bind, (run_load _ _ _ Hn).
    do 3 (rewrite run_bind, run_put; simpl). rewrite run_put. simpl.
    by rewrite !app_assoc_s.
  - rewrite decide_False by lia. simpl.
    by rewrite app_empty_r, world_eta.
Qed.

Lemma search_and_report_first_witness :
  arrays (World {["n" := 7]} {["ar" := ar_init]} "") !! "ar" = Some ar_init
  ∧ length ar_init = 10%nat
  ∧ ints (World {["n" := 7]} {["ar" := ar_init]} "") !! "n" = Some 7
  ∧ 7 ≠ 0
  ∧ search_and_report (World {["n" := 7]} {["ar" := ar_init]} "")
    = Some (tt, World {["n" := 7]} {["ar" := ar_init]}
                  ("7 can be divided by 7" +:+ endl)).
Proof.
  split; [reflexivity|]. split; [reflexivity|]. split; [reflexivity|].
  split; [lia|].
  refine (eq_trans (search_and_report_first
           (World {["n" := 7]} {["ar" := ar_init]} "") ar_init 7 _ _ _ _ _) _);
    [..|vm_compute; reflexivity].
  - reflexivity.
  - reflexivity.
  - reflexivity.
  - lia.
  - unfold ar_init. repeat constructor; try reflexivity; lia.
Defined.

(** ** The comparator of lines 85 and 117 *)

(** X4. On ints other than INT_MIN the comparator is a strict weak order, as
    [std::sort] requires: never true of a value against itself,
    transitive, and with a transitive "neither is less" relation. *)
Theorem abs_lambda_strict_weak_order (x y z : Z) :
  negatable x → negatable y → negatable z →
  abs_lambda x x = Some false
  ∧ (abs_lambda x y = Some true → abs_lambda y x = Some false)
  ∧ (abs_lambda x y = Some true → abs_lambda y z = Some true →
     abs_lambda x z = Some true)
  ∧ (abs_lambda x y = Some false → abs_lambda y x = Some false →
     abs_lambda y z = Some false → abs_lambda z y = Some false →
     abs_lambda x z = Some false ∧ abs_lambda z x = Some false)
  ∧ abs_less_call x y = abs_lambda x y.
Proof.
  intros Hx Hy Hz. rewrite !abs_lambda_negatable by done.
  split_and!; [ | | | | done].
  - by rewrite Z.ltb_irrefl.
  - intros [= H1%Z.ltb_lt]. f_equal. apply Z.ltb_ge. lia.
  - intros [= H1%Z.ltb_lt] [= H2%Z.ltb_lt]. f_equal. apply Z.ltb_lt. lia.
  - intros [= H1%Z.ltb_ge] [= H2%Z.ltb_ge] [= H3%Z.ltb_ge] [= H4%Z.ltb_ge].
    split; f_equal; apply Z.ltb_ge; lia.
Qed.

Lemma abs_lambda_strict_weak_order_witness :
  negatable 3 ∧ negatable (-5) ∧ negatable 9
  ∧ abs_lambda 3 3 = Some false.
Proof.
  assert (negatable 3) as H3 by (split; by vm_compute).
  assert (negatable (-5)) as H5 by (split; by vm_compute).
  assert (negatable 9) as H9 by (split; by vm_compute).
  split; [exact H3|]. split; [exact H5|]. split; [exact H9|].
  exact (proj1 (abs_lambda_strict_weak_order 3 (-5) 9 H3 H5 H9)).
Defined.

Lemma magnitude_undefined_iff (x : Z) :
  Int.in_int x = true → magnitude x = None ↔ x = Int.int_min.
Proof.
  intros Hx%in_int_range. split.
  - intros Hnone. destruct (decide (x = Int.int_min)) as [|Hne]; [done|].
    rewrite magnitude_negatable in Hnone; [done|].
    unfold negatable. lia.
  - by intros ->.
Qed.

(** X5. On ints the comparator is undefined exactly when one of its
    arguments is INT_MIN, whose negation is not an int. *)
Theorem abs_lambda_undefined_iff (x y : Z) :
  Int.in_int x = true → Int.in_int y = true →
  abs_lambda x y = None ↔ x = Int.int_min ∨ y = Int.int_min.
Proof.
  intros Hx Hy.
  rewrite <- (magnitude_undefined_iff x Hx), <- (magnitude_undefined_iff y Hy).
  unfold abs_lambda.
  destruct (magnitude x), (magnitude y); simpl;
    (split; [intros Hnone | intros [Hnone|Hnone]]); (done || by auto).
Qed.

Lemma abs_lambda_undefined_iff_witness :
  Int.in_int Int.int_min = true ∧ Int.in_int 1 = true
  ∧ (abs_lambda Int.int_min 1 = None
     ↔ Int.int_min = Int.int_min ∨ 1 = Int.int_min).
Proof.
  split; [reflexivity|]. split; [reflexivity|].
  apply (abs_lambda_undefined_iff Int.int_min 1); reflexivity.
Defined.

(** ** The sort of line 117 *)

Lemma StronglySorted_of_sorted_wrt (l : list Z) :
  Forall negatable l → Std.sorted_wrt abs_lambda l →
  StronglySorted below l.
Proof.
  induction l as [|x l IH]; intros Hl Hs; [constructor|].
  apply Forall_cons in Hl as [Hx Hl]. constructor.
  - apply IH; [done|]. intros i j a b Hij Ha Hb.
    apply (Hs (S i) (S j)); [lia | done..].
  - apply Forall_forall. intros b Hb.
    apply list_elem_of_lookup in Hb as [j Hj].
    assert (abs_lambda b x = Some false) as Hc
      by (apply (Hs 0%nat (S j)); [lia | done..]).
    rewrite Forall_forall in Hl.
    rewrite abs_lambda_negatable in Hc
      by (done || apply Hl; by eapply list_elem_of_lookup_2).
    injection Hc as Hc. by apply Z.ltb_ge in Hc.
Qed.

(** X6. When no two elements have the same absolute value, the contract of
    [std::sort] leaves one possible result, and it is the one computed
    here: the outcome does not depend on the sorting algorithm. *)
Theorem sort_abs_determined (l l' : list Z) :
  Forall negatable l →
  NoDup (Z.abs <$> l) →
  Std.sort_post abs_lambda l l' →
  Std.sort abs_lambda l = Some l'.
Proof.
  intros Hl Hnd [Hperm Hw].
  destruct (sort_abs l Hl) as (l0 & -> & Hperm0 & Hs0). f_equal.
  assert (Forall negatable l') as Hl' by by rewrite <- Hperm.
  apply (StronglySorted_unique_strong below).
  - intros x1 x2 H1 H2 H12 H21. unfold below in *.
    rewrite <- Hperm0 in H1. rewrite <- Hperm in H2.
    assert (Z.abs x1 = Z.abs x2) as Habs by lia.
    clear -Hnd H1 H2 Habs.
    induction l as [|y l IH]; [by apply elem_of_nil in H1|].
    rewrite fmap_cons in Hnd. apply NoDup_cons in Hnd as [Hy Hnd].
    apply elem_of_cons in H1 as [->|H1], H2 as [->|H2]; [done | | | by apply IH].
    + destruct Hy. rewrite Habs. by apply list_elem_of_fmap_2.
    + destruct Hy. rewrite <- Habs. by apply list_elem_of_fmap_2.
  - done.
  - by apply StronglySorted_of_sorted_wrt.
  - by rewrite <- Hperm0.
Qed.

Lemma sort_abs_determined_witness :
  Forall negatable [2; -1]
  ∧ NoDup (Z.abs <$> [2; -1])
  ∧ Std.sort_post abs_lambda [2; -1] [-1; 2]
  ∧ Std.sort abs_lambda [2; -1] = Some [-1; 2].
Proof.
  assert (Forall negatable [2; -1]) as Hl
    by (repeat constructor; by vm_compute).
  assert (NoDup (Z.abs <$> [2; -1])) as Hnd
    by (apply (bool_decide_unpack _); by vm_compute).
  assert (Std.sort_post abs_lambda [2; -1] [-1; 2]) as Hpost
    by (split; [apply Permutation_swap | by apply sorted_wrt_pair]).
  split; [exact Hl|]. split; [exact Hnd|]. split; [exact Hpost|].
  exact (sort_abs_determined [2; -1] [-1; 2] Hl Hnd Hpost).
Defined.

(** ** The build with function objects *)

Lemma linear_insert_length (comp : Z → Z → option bool) (val : Z)
    (before r : list Z) :
  Std.linear_insert comp val before = Some r → length r = S (length before).
Proof.
  revert r. induction before as [|next rest IH]; intros r; simpl.
  - by intros [= <-].
  - destruct (comp val next) as [[]|]; simpl; [| |done].
    + destruct (Std.linear_insert comp val rest) as [r'|]; simpl; [|done].
      intros [= <-]. simpl. by rewrite (IH r').
    + by intros [= <-].
Qed.

(** Whatever the comparator, a sort that returns keeps the length. *)
Lemma sort_length (comp : Z → Z → option bool) (l l' : list Z) :
  Std.sort comp l = Some l' → length l' = length l.
Proof.
  unfold Std.sort.
  assert (∀ before todo r, Std.insertion_loop comp before todo = Some r →
            length r = (length before + length todo)%nat) as Hloop.
  { intros before todo. revert before.
    induction todo as [|val todo IH]; intros before r; simpl.
    - intros [= <-]. rewrite length_rev. lia.
    - destruct (Std.linear_insert comp val before) as [b'|] eqn:Hins;
        simpl; [|done].
      intros Hr. apply IH in Hr. apply linear_insert_length in Hins. lia. }
  intros Hs. by apply Hloop in Hs.
Qed.

(** From [idx] on, the index loop prints what is left of a 10-element
    array. *)
Lemma run_index_loop (fuel : nat) (i : nat) (a : list Z) (w : world) :
  arrays w !! "ar" = Some a →
  length a = 10%nat →
  (i ≤ 10)%nat →
  (10 - i < fuel)%nat →
  index_loop fuel (Z.of_nat i) w
  = Std.for_each (λ x : Z, put x;; put " ") (drop i a) w.
Proof.
  revert i w. induction fuel as [|fuel IH]; intros i w Har Hlen Hi Hfuel;
    [lia|].
  simpl index_loop. destruct (Z.ltb_spec (Z.of_nat i) 10) as [Hlt|Hge].
  - rewrite run_bind, (run_load_array _ _ _ Har).
    destruct (a !! i) as [x|] eqn:Hx;
      [|apply lookup_ge_None in Hx; lia].
    rewrite (drop_S _ _ _ Hx).
    change (Std.for_each (λ x : Z, put x;; put " ") (x :: drop (S i) a) w)
      with (((put x;; put " ");;
             Std.for_each (λ x : Z, put x;; put " ") (drop (S i) a)) w).
    rewrite !run_bind.
    destruct (Z.leb_spec 0 (Z.of_nat i)) as [_|]; [|lia].
    rewrite Nat2Z.id, Hx. simpl.
    rewrite !run_bind, !run_put. simpl.
    rewrite run_bind. unfold Int.add.
    rewrite checked_in_range
      by (unfold Int.int_min, Int.int_max; lia).
    simpl. replace (Z.of_nat i + 1) with (Z.of_nat (S i)) by lia.
    apply IH; [done | done | lia | lia].
  - assert (i = 10%nat) as -> by lia.
    rewrite drop_ge by lia. reflexivity.
Qed.

(** X7. On any 10-element array the loop of lines 110-112 writes what the
    [for_each] of line 119 writes, given fuel for its eleven guard tests. *)
Theorem index_loop_for_each (fuel : nat) (a : list Z) (w : world) :
  arrays w !! "ar" = Some a →
  length a = 10%nat →
  (11 ≤ fuel)%nat →
  index_loop fuel 0 w = Std.for_each (λ x : Z, put x;; put " ") a w.
Proof.
  intros Har Hlen Hfuel.
  apply (run_index_loop fuel 0 a w); [done | done | lia | lia].
Qed.

Lemma index_loop_for_each_witness :
  arrays (World ∅ {["ar" := ar_init]} "") !! "ar" = Some ar_init
  ∧ length ar_init = 10%nat
  ∧ (11 ≤ 11)%nat
  ∧ index_loop 11 0 (World ∅ {["ar" := ar_init]} "")
    = Std.for_each (λ x : Z, put x;; put " ") ar_init
        (World ∅ {["ar" := ar_init]} "").
Proof.
  split; [reflexivity|]. split; [reflexivity|]. split; [lia|].
  apply (index_loop_for_each 11 ar_init (World ∅ {["ar" := ar_init]} "")).
  - reflexivity.
  - reflexivity.
  - lia.
Defined.

(** ** The demonstrations from any state *)

Lemma run_demo_find (w : world) :
  demo_find w
  = Some (tt, World (<["n":=4]> (ints w)) (<["ar":=ar_init]> (arrays w))
                (cout w +:+ "-4 can be divided by 4" +:+ endl)).
Proof.
  unfold demo_find. rewrite run_bind. simpl. rewrite run_bind, run_store.
  simpl.
  rewrite (search_and_report_first _ ar_init 4);
    [ | simpl; apply lookup_insert_eq | done | simpl; apply lookup_insert_eq
      | done | ].
  - reflexivity.
  - unfold ar_init. repeat constructor; try reflexivity;
      unfold Int.int_min; lia.
Qed.

Lemma run_demo_stored_closures (w : world) :
  demo_stored_closures w
  = Some (tt, World (ints w) (arrays w)
                (cout w +:+ ("Ben SIR " +:+ endl)
                        +:+ ("Bingshiue SIR " +:+ endl))).
Proof.
  unfold demo_stored_closures.
  rewrite run_bind, run_polite, run_bind, run_println.
  rewrite run_bind, run_polite, run_println. simpl.
  by rewrite !app_assoc_s.
Qed.

Lemma run_demo_value_capture (w : world) :
  demo_value_capture w
  = Some (tt, World (<["n":=456]> (<["number":=123]> (ints w))) (arrays w)
                (cout w +:+ ("123 Captured " +:+ endl) +:+ endl)).
Proof.
  unfold demo_value_capture, capt_print_new.
  rewrite run_bind, run_store.
  rewrite !run_bind, (run_load "number" 123) by apply lookup_insert_eq.
  simpl. rewrite run_bind, run_store. simpl.
  rewrite run_bind, run_capt_print_call, run_put. simpl.
  by rewrite !app_assoc_s.
Qed.

Lemma run_demo_mutable_capture (w : world) :
  ints w !! "number" = Some 123 →
  demo_mutable_capture w
  = Some (tt, World (<["number2":=123]> (ints w)) (arrays w)
                (cout w +:+ captured_lines 123 3
                        +:+ ("number2 = 123" +:+ endl) +:+ endl)).
Proof.
  intros Hn. unfold demo_mutable_capture.
  rewrite run_bind, run_store, run_bind.
  rewrite (run_mutable_capture_calls _ 123);
    [ | simpl; by rewrite lookup_insert_ne | simpl; apply lookup_insert_eq ].
  rewrite run_put. simpl. rewrite !app_assoc_s. reflexivity.
Qed.

(** X9. [main] reads no local before writing it: from any state it returns 0
    and adds the same text to the output, never running into undefined
    behaviour. *)
Theorem main_from_any_state (w : world) :
  (λ r, (r.1, cout r.2)) <$> main w
  = Some (0,
          cout w +:+
          join ["-4 can be divided by 4"; endl;
                "0 1 -2 3 -4 5 -6 7 -8 9 "; endl;
                "Ben SIR "; endl;
                "Bingshiue SIR "; endl;
                "123 Captured "; endl;
                endl;
                "123 Captured "; endl;
                "124 Captured "; endl;
                "125 Captured "; endl;
                "number2 = 123"; endl;
                endl;
                "123 Captured "; endl;
                "124 Captured "; endl;
                "125 Captured "; endl;
                "number3 = 126"; endl;
                "456 Captured "; endl;
                "number3 = 457"; endl;
                endl;
                "4 Numbers Less Than 5"; endl;
                endl;
                "1 2 3 "; endl]).
Proof.
  unfold main.
  rewrite run_bind, run_demo_find.
  rewrite run_bind, run_demo_sort by (simpl; apply lookup_insert_eq).
  rewrite run_bind, run_demo_stored_closures.
  rewrite run_bind, run_demo_value_capture.
  rewrite run_bind, run_demo_mutable_capture
    by (simpl; by rewrite lookup_insert_ne, lookup_insert_eq).
  rewrite run_bind, run_demo_reference_capture.
  rewrite run_bind, run_demo_multi_capture.
  rewrite run_bind, run_demo_this_capture.
  simpl. rewrite !app_assoc_s. reflexivity.
Qed.

Lemma demo_sort_fo_equiv (w : world) (a : list Z) :
  arrays w !! "ar" = Some a → length a = 10%nat →
  demo_sort_fo w = demo_sort w.
Proof.
  intros Har Hlen. unfold demo_sort_fo, demo_sort, sort_in_place.
  rewrite !run_bind, (run_load_array _ _ _ Har).
  change (Std.sort abs_less_call a) with (Std.sort abs_lambda a).
  set (loop := index_loop 11 0).
  destruct (Std.sort abs_lambda a) as [l'|] eqn:Hsort; simpl; [|done].
  apply sort_length in Hsort.
  rewrite !run_bind. subst loop.
  rewrite (index_loop_for_each 11 l');
    [ | simpl; apply lookup_insert_eq | lia | lia ].
  rewrite (run_load_array "ar" l') by (simpl; apply lookup_insert_eq).
  reflexivity.
Qed.

(** X8. The two builds agree: on any 10-element array the search and the
    sort-and-print sections of the function-object build do what those of
    the closure build do, undefined cases included, and so does the whole
    of [main] from any state. *)
Theorem function_object_build (w : world) (a : list Z) :
  arrays w !! "ar" = Some a →
  length a = 10%nat →
  search_and_report_fo w = search_and_report w
  ∧ demo_sort_fo w = demo_sort w
  ∧ (∀ w0, main_fo w0 = main w0).
Proof.
  intros Har Hlen. split_and!.
  - reflexivity.
  - by apply (demo_sort_fo_equiv w a).
  - intros w0. unfold main_fo, main. rewrite !run_bind.
    change (demo_find_fo w0) with (demo_find w0).
    rewrite run_demo_find.
    rewrite !run_bind.
    by rewrite (demo_sort_fo_equiv _ ar_init)
      by (done || simpl; apply lookup_insert_eq).
Qed.

Lemma function_object_build_witness :
  arrays (World ∅ {["ar" := ar_init]} "") !! "ar" = Some ar_init
  ∧ length ar_init = 10%nat
  ∧ demo_sort_fo (World ∅ {["ar" := ar_init]} "")
    = demo_sort (World ∅ {["ar" := ar_init]} "").
Proof.
  split; [reflexivity|]. split; [reflexivity|].
  refine (proj1 (proj2 (function_object_build
            (World ∅ {["ar" := ar_init]} "") ar_init _ _))); reflexivity.
Defined.

(** ** The closures with state *)

(** X10. Started with an int [v] in its copy, [capt_print2] can be called [k]
    times exactly when [v] + [k] does not exceed INT_MAX: the call that
    would increment INT_MAX is undefined. *)
Theorem capt_print2_calls_defined_iff (k : nat) (v : Z) (w : world) :
  Int.in_int v = true →
  is_Some (call_times capt_print2_call k {| cp2_number := v |} w)
  ↔ v + Z.of_nat k ≤ Int.int_max.
Proof.
  intros Hv%in_int_range. split.
  - intros [r Hr].
    destruct (decide (v + Z.of_nat k ≤ Int.int_max)) as [|Hgt]; [done|].
    rewrite run_call_times_overflow in Hr by lia. done.
  - intros Hk. rewrite run_call_times by lia. by eexists.
Qed.

Lemma capt_print2_calls_defined_iff_witness :
  Int.in_int 123 = true
  ∧ (is_Some (call_times capt_print2_call 3 {| cp2_number := 123 |} start)
     ↔ 123 + Z.of_nat 3 ≤ Int.int_max).
Proof.
  split; [reflexivity|].
  apply (capt_print2_calls_defined_iff 3 123 start). reflexivity.
Defined.

(** X11. [k] calls of [capt_print3] while [number3] holds [v] print [v], ...,
    [v]+[k]-1 and leave [v]+[k] in [number3]; nothing else changes. *)
Theorem capt_print3_calls (k : nat) (v : Z) (w : world) :
  ints w !! "number3" = Some v →
  Int.int_min ≤ v + 1 →
  v + Z.of_nat k ≤ Int.int_max →
  repeat_call (capt_print3_call {| cp3_number3 := "number3" |}) k w
  = Some (tt, World (<["number3":=v + Z.of_nat k]> (ints w)) (arrays w)
                (cout w +:+ captured_lines v k)).
Proof.
  revert v w. induction k as [|k IH]; intros v w Hn Hlo Hhi.
  - simpl. unfold captured_lines. simpl.
    rewrite Z.add_0_r, insert_id by done.
    by rewrite app_empty_r, world_eta.
  - change (repeat_call ?c (S k) w) with ((c;; repeat_call c k) w).
    rewrite run_bind.
    erewrite run_capt_print3_call; [ | exact Hn | lia ].
    erewrite IH; [ | simpl; apply lookup_insert_eq | lia | lia ].
    simpl. rewrite insert_insert_eq, captured_lines_S, !app_assoc_s.
    by replace (v + 1 + Z.of_nat k) with (v + Z.of_nat (S k)) by lia.
Qed.

Lemma capt_print3_calls_witness :
  ints (World {["number3" := 123]} ∅ "") !! "number3" = Some 123
  ∧ Int.int_min ≤ 123 + 1
  ∧ 123 + Z.of_nat 3 ≤ Int.int_max
  ∧ repeat_call (capt_print3_call {| cp3_number3 := "number3" |}) 3
      (World {["number3" := 123]} ∅ "")
    = Some (tt, World (<["number3":=123 + Z.of_nat 3]> {["number3" := 123]}) ∅
                  ("" +:+ captured_lines 123 3)).
Proof.
  split; [reflexivity|]. split; [by vm_compute|]. split; [by vm_compute|].
  refine (eq_trans
    (capt_print3_calls 3 123 (World {["number3" := 123]} ∅ "") _ _ _) _).
  - reflexivity.
  - by vm_compute.
  - by vm_compute.
  - reflexivity.
Defined.

(** X13. [capt_print] keeps no state and touches none: [k] calls write the
    same line [k] times and leave the locals as they were. *)
Theorem capt_print_calls (k : nat) (c : capt_print_t) (w : world) :
  repeat_call (capt_print_call c) k w
  = Some (tt, World (ints w) (arrays w)
                (cout w +:+
                 join (replicate k
                         (pretty (cp_number c) +:+ " Captured " +:+ endl)))).
Proof.
  revert w. induction k as [|k IH]; intros w.
  - simpl. by rewrite app_empty_r, world_eta.
  - change (repeat_call ?f (S k) w) with ((f;; repeat_call f k) w).
    rewrite run_bind, run_capt_print_call, IH. simpl.
    by rewrite !app_assoc_s.
Qed.

(** X12. A call of [capt_print3] is undefined exactly when [number3] holds
    INT_MAX. *)
Theorem capt_print3_call_undefined_iff (v : Z) (w : world) :
  ints w !! "number3" = Some v →
  Int.in_int v = true →
  capt_print3_call {| cp3_number3 := "number3" |} w = None
  ↔ v = Int.int_max.
Proof.
  intros Hn Hv%in_int_range. split.
  - intros Hnone. destruct (decide (v = Int.int_max)) as [|Hne]; [done|].
    erewrite run_capt_print3_call in Hnone; [done | exact Hn | lia].
  - intros ->. unfold capt_print3_call, post_incr. simpl.
    rewrite !run_bind, (run_load _ _ _ Hn). reflexivity.
Qed.

Lemma capt_print3_call_undefined_iff_witness :
  ints (World {["number3" := Int.int_max]} ∅ "") !! "number3"
    = Some Int.int_max
  ∧ Int.in_int Int.int_max = true
  ∧ (capt_print3_call {| cp3_number3 := "number3" |}
       (World {["number3" := Int.int_max]} ∅ "") = None
     ↔ Int.int_max = Int.int_max).
Proof.
  split; [reflexivity|]. split; [reflexivity|].
  apply (capt_print3_call_undefined_iff Int.int_max
           (World {["number3" := Int.int_max]} ∅ "")); reflexivity.
Defined.

(** ** The counting closure *)

(** X14. [count_less] holds the threshold it found in [target] when it was
    built and the location of [count]: a later assignment to [target] is
    ignored, a later assignment to [count] is where the count starts. *)
Theorem count_less_captures (w : world) (l : list Z) (t t' n : Z) :
  ints w !! "target" = Some t →
  Int.int_min ≤ n + 1 →
  n + Z.of_nat (length l) ≤ Int.int_max →
  (c ← count_less_new;
   store "target" t';; store "count" n;;
   Std.for_each (count_less_call c) l;;
   load "count") w
  = Some (n + Z.of_nat (length (filter (λ y, y < t) l)),
          World (<["count":=n + Z.of_nat (length (filter (λ y, y < t) l))]>
                   (<["target":=t']> (ints w)))
            (arrays w) (cout w)).
Proof.
  intros Ht Hlo Hhi. unfold count_less_new.
  rewrite !run_bind, (run_load _ _ _ Ht). simpl.
  rewrite run_bind, run_store, run_bind, run_store, run_bind. simpl.
  rewrite (run_for_each_count_less _ _ n);
    [ | simpl; apply lookup_insert_eq | done | done ].
  simpl. rewrite insert_insert_eq.
  by rewrite (run_load "count" _) by apply lookup_insert_eq.
Qed.

Lemma count_less_captures_witness :
  ints (World {["target" := 5]} ∅ "") !! "target" = Some 5
  ∧ Int.int_min ≤ 10 + 1
  ∧ 10 + Z.of_nat (length data_init) ≤ Int.int_max
  ∧ (c ← count_less_new;
     store "target" 100;; store "count" 10;;
     Std.for_each (count_less_call c) data_init;;
     load "count") (World {["target" := 5]} ∅ "")
    = Some (14, World (<["count":=14]> (<["target":=100]> {["target" := 5]}))
                  ∅ "").
Proof.
  split; [reflexivity|]. split; [by vm_compute|]. split; [by vm_compute|].
  refine (eq_trans
    (count_less_captures (World {["target" := 5]} ∅ "") data_init 5 100 10
       _ _ _) _).
  - reflexivity.
  - by vm_compute.
  - by vm_compute.
  - reflexivity.
Defined.

(** X15. A call of [count_less] is undefined exactly when its argument is
    below the threshold while [count] holds INT_MAX. *)
Theorem count_less_call_undefined_iff (c : count_less_t) (x n : Z)
    (w : world) :
  ints w !! cl_count c = Some n →
  Int.in_int n = true →
  count_less_call c x w = None ↔ x < cl_target c ∧ n = Int.int_max.
Proof.
  intros Hc Hn%in_int_range. unfold count_less_call.
  destruct (Z.ltb_spec x (cl_target c)) as [Hlt|Hge].
  - destruct (decide (n = Int.int_max)) as [->|Hne].
    + unfold pre_incr. rewrite !run_bind, (run_load _ _ _ Hc). done.
    + rewrite run_bind, (run_pre_incr _ _ _ Hc) by lia. simpl.
      split; [done | intros [_ ?]; done].
  - split; [done | intros [? _]; lia].
Qed.

Lemma count_less_call_undefined_iff_witness :
  ints (World {["count" := Int.int_max]} ∅ "") !! "count" = Some Int.int_max
  ∧ Int.in_int Int.int_max = true
  ∧ (count_less_call {| cl_count := "count"; cl_target := 5 |} 1
       (World {["count" := Int.int_max]} ∅ "") = None
     ↔ 1 < 5 ∧ Int.int_max = Int.int_max).
Proof.
  split; [reflexivity|]. split; [reflexivity|].
  apply (count_less_call_undefined_iff
           {| cl_count := "count"; cl_target := 5 |} 1 Int.int_max
           (World {["count" := Int.int_max]} ∅ "")); reflexivity.
Defined.

(** ** The container *)

Lemma join_app (l1 l2 : list string) : join (l1 ++ l2) = join l1 +:+ join l2.
Proof.
  induction l1 as [|s l1 IH]; [done|].
  simpl. unfold join in *. simpl. by rewrite IH, app_assoc_s.
Qed.

(** X16. An empty container prints nothing, and after [add] the container
    prints what it printed before followed by the new element. *)
Theorem print_all_add {T} `{Insertable T} (c : numbers T) (x : T)
    (w : world) :
  print_all (numbers_new : numbers T) w = Some (tt, w)
  ∧ print_all (add x c) w = (print_all c;; print_one c x) w.
Proof.
  split; [done|].
  rewrite run_bind. unfold print_all.
  rewrite !run_for_each_print_one, run_print_one. simpl.
  rewrite fmap_app, join_app. simpl.
  by rewrite !app_assoc_s, app_empty_r.
Qed.
